(** * rate_tv_frontend: the authenticated-request pipeline

    A shallow embedding of [src/types/auth.ts], [src/composables/useAuth.ts]
    and [src/composables/useAuthApi.ts].

    Asynchronous functions are embedded in a resumption monad: a program is
    run on the current store until its next suspension point (a network
    call, an [await] of another promise, the microtask tick every [await]
    takes) and hands back the store it has written so far together with
    its continuation.  The continuation is resumed later on whatever the
    store has become in the meantime, which is how the JavaScript event
    loop interleaves the callers of the gateway.

    The expiry check of [useAuth] is a Vue [computed]: its getter is
    embedded as a function of the store, and the value the computed keeps
    between two changes of the access token as a cell of the client, next
    to the event loop. *)

From Stdlib Require Import ZArith Lia Bool.
From stdpp Require Import base option strings list gmap.

Set Default Proof Using "Type".

(** ** [src/types/auth.ts] *)

Record JwtPayload := {
  sub : string;
  exp : Z;
  iat : Z;
  roles : option (list string);
  email : string }.

Record AuthTokens := {
  at_accessToken : string;
  at_refreshToken : string }.

Record LoginCredentials := {
  cred_email : string;
  cred_password : string }.

Inductive AuthErrorType :=
| INVALID_CREDENTIALS
| TOKEN_EXPIRED
| REFRESH_FAILED
| UNAUTHORIZED.

Record AuthUser := {
  u_id : string;
  u_roles : list string;
  u_email : string }.

(** Values that are thrown: [AuthError] of the repository, the error
    [$fetch] rejects with (with the status of the response, when there is
    one), and the error [jwtDecode] throws. *)
Inductive JsError :=
| AuthError (type : AuthErrorType) (message : string)
| FetchError (status : option Z) (message : string)
| InvalidTokenError (message : string).

Definition error_message (e : JsError) : string :=
  match e with
  | AuthError _ m => m
  | FetchError _ m => m
  | InvalidTokenError m => m
  end.

(** ** The network, as the code sees it *)

Inductive Method := GET | POST | PUT | DELETE.

Inductive Payload :=
| PCredentials (c : LoginCredentials)
| PRefreshToken (t : option string)
| PData (d : string).

Record Request := {
  req_url : string;
  req_method : Method;
  req_baseURL : option string;
  req_headers : gmap string string;
  req_body : option Payload }.

Inductive Body :=
| BodyTokens (t : AuthTokens)
| BodyData (d : string).

Inductive FetchResult :=
| FetchOk (b : Body)
| FetchHttpError (status : Z) (message : string)
| FetchNetworkError (message : string).

(** Destructuring [{ accessToken, refreshToken }] out of a response body:
    a body without the field yields [undefined]. *)
Definition body_accessToken (b : Body) : option string :=
  match b with BodyTokens t => Some (at_accessToken t) | BodyData _ => None end.

Definition body_refreshToken (b : Body) : option string :=
  match b with BodyTokens t => Some (at_refreshToken t) | BodyData _ => None end.

(** ** The store: cookies, reactive state, the module-level refresh handle
    and what the program has done to the outside world

    [loadingWrites] records the assignments to [loading.value] in the
    order they are made; the code never reads it. *)

Record Store := {
  accessToken : option string;      (* useCookie("access_token") *)
  refreshToken : option string;     (* useCookie("refresh_token") *)
  user : option AuthUser;           (* useState("auth_user") *)
  loading : bool;                   (* useState("auth_loading") *)
  refreshQueue : option nat;        (* let refreshQueue: Promise<void> | null *)
  now : Z;                          (* Date.now() *)
  netlog : list Request;            (* network calls issued, latest first *)
  navlog : list string;             (* navigateTo targets, latest first *)
  console : list string;            (* console.error lines, latest first *)
  loadingWrites : list bool }.      (* values assigned to loading.value,
                                       latest first *)

Definition set_accessToken (v : option string) (s : Store) : Store :=
  {| accessToken := v; refreshToken := refreshToken s; user := user s;
     loading := loading s; refreshQueue := refreshQueue s; now := now s;
     netlog := netlog s; navlog := navlog s; console := console s;
     loadingWrites := loadingWrites s |}.

Definition set_refreshToken (v : option string) (s : Store) : Store :=
  {| accessToken := accessToken s; refreshToken := v; user := user s;
     loading := loading s; refreshQueue := refreshQueue s; now := now s;
     netlog := netlog s; navlog := navlog s; console := console s;
     loadingWrites := loadingWrites s |}.

Definition set_user (v : option AuthUser) (s : Store) : Store :=
  {| accessToken := accessToken s; refreshToken := refreshToken s; user := v;
     loading := loading s; refreshQueue := refreshQueue s; now := now s;
     netlog := netlog s; navlog := navlog s; console := console s;
     loadingWrites := loadingWrites s |}.

Definition set_loading (v : bool) (s : Store) : Store :=
  {| accessToken := accessToken s; refreshToken := refreshToken s;
     user := user s; loading := v; refreshQueue := refreshQueue s;
     now := now s; netlog := netlog s; navlog := navlog s;
     console := console s;
     loadingWrites := v :: loadingWrites s |}.

Definition set_refreshQueue (v : option nat) (s : Store) : Store :=
  {| accessToken := accessToken s; refreshToken := refreshToken s;
     user := user s; loading := loading s; refreshQueue := v; now := now s;
     netlog := netlog s; navlog := navlog s; console := console s;
     loadingWrites := loadingWrites s |}.

Definition set_now (v : Z) (s : Store) : Store :=
  {| accessToken := accessToken s; refreshToken := refreshToken s;
     user := user s; loading := loading s; refreshQueue := refreshQueue s;
     now := v; netlog := netlog s; navlog := navlog s;
     console := console s;
     loadingWrites := loadingWrites s |}.

Definition log_request (r : Request) (s : Store) : Store :=
  {| accessToken := accessToken s; refreshToken := refreshToken s;
     user := user s; loading := loading s; refreshQueue := refreshQueue s;
     now := now s; netlog := r :: netlog s; navlog := navlog s;
     console := console s;
     loadingWrites := loadingWrites s |}.

Definition log_navigate (target : string) (s : Store) : Store :=
  {| accessToken := accessToken s; refreshToken := refreshToken s;
     user := user s; loading := loading s; refreshQueue := refreshQueue s;
     now := now s; netlog := netlog s; navlog := target :: navlog s;
     console := console s;
     loadingWrites := loadingWrites s |}.

Definition log_console (line : string) (s : Store) : Store :=
  {| accessToken := accessToken s; refreshToken := refreshToken s;
     user := user s; loading := loading s; refreshQueue := refreshQueue s;
     now := now s; netlog := netlog s; navlog := navlog s;
     console := line :: console s;
     loadingWrites := loadingWrites s |}.

(** ** Asynchronous programs *)

Inductive Completion (A : Type) : Type :=
| Normal (a : A)
| Thrown (e : JsError).
Arguments Normal {A} a.
Arguments Thrown {A} e.

(** What a program has become when control returns to the event loop.
    Every constructor but [Spawn] carries the store as the program leaves
    it; the continuations take the store as they find it.
    - [Done]: settled;
    - [Fetch]: waiting for the network to answer a request;
    - [Yield]: waiting for its turn on the microtask queue;
    - [Await]: waiting for the promise [h] to settle ([None]: fulfilled,
      [Some e]: rejected with [e]);
    - [Spawn]: has called an async function without awaiting it; the
      callee has run up to its own first suspension and its promise is
      passed to the continuation, which goes on at once. *)
Inductive Step (A : Type) : Type :=
| Done (c : Completion A) (s : Store)
| Fetch (req : Request) (s : Store) (k : FetchResult -> Store -> Step A)
| Yield (s : Store) (k : Store -> Step A)
| Await (h : nat) (s : Store) (k : option JsError -> Store -> Step A)
| Spawn (child : Step unit) (k : nat -> Store -> Step A).
Arguments Done {A} c s.
Arguments Fetch {A} req s k.
Arguments Yield {A} s k.
Arguments Await {A} h s k.
Arguments Spawn {A} child k.

Definition Prog (A : Type) : Type := Store -> Step A.

Fixpoint bind_step {A B : Type} (st : Step A) (f : A -> Prog B) : Step B :=
  match st with
  | Done (Normal a) s => f a s
  | Done (Thrown e) s => Done (Thrown e) s
  | Fetch req s k => Fetch req s (fun r s' => bind_step (k r s') f)
  | Yield s k => Yield s (fun s' => bind_step (k s') f)
  | Await h s k => Await h s (fun c s' => bind_step (k c s') f)
  | Spawn child k => Spawn child (fun h s' => bind_step (k h s') f)
  end.

(** [try { st } catch (e) { handler e }] *)
Fixpoint catch_step {A : Type} (st : Step A) (handler : JsError -> Prog A)
  : Step A :=
  match st with
  | Done (Normal a) s => Done (Normal a) s
  | Done (Thrown e) s => handler e s
  | Fetch req s k => Fetch req s (fun r s' => catch_step (k r s') handler)
  | Yield s k => Yield s (fun s' => catch_step (k s') handler)
  | Await h s k => Await h s (fun c s' => catch_step (k c s') handler)
  | Spawn child k => Spawn child (fun h s' => catch_step (k h s') handler)
  end.

(** [try { st } finally { fin }]: [fin] runs however [st] completes, and
    the completion of [st] stands unless [fin] throws. *)
Fixpoint finally_step {A : Type} (st : Step A) (fin : Prog unit) : Step A :=
  match st with
  | Done c s => bind_step (fin s) (fun _ s' => Done c s')
  | Fetch req s k => Fetch req s (fun r s' => finally_step (k r s') fin)
  | Yield s k => Yield s (fun s' => finally_step (k s') fin)
  | Await h s k => Await h s (fun c s' => finally_step (k c s') fin)
  | Spawn child k => Spawn child (fun h s' => finally_step (k h s') fin)
  end.

(** [await f()] for an async function [f]: the caller is suspended as long
    as the callee is, and once the callee has settled the caller resumes
    on a later microtask, also when the callee settled without
    suspending. *)
Fixpoint await_step {A : Type} (st : Step A) : Step A :=
  match st with
  | Done c s => Yield s (fun s' => Done c s')
  | Fetch req s k => Fetch req s (fun r s' => await_step (k r s'))
  | Yield s k => Yield s (fun s' => await_step (k s'))
  | Await h s k => Await h s (fun c s' => await_step (k c s'))
  | Spawn child k => Spawn child (fun h s' => await_step (k h s'))
  end.

Definition ret {A : Type} (a : A) : Prog A := fun s => Done (Normal a) s.
Definition throw {A : Type} (e : JsError) : Prog A :=
  fun s => Done (Thrown e) s.
Definition bind {A B : Type} (m : Prog A) (f : A -> Prog B) : Prog B :=
  fun s => bind_step (m s) f.
Definition get : Prog Store := fun s => Done (Normal s) s.
Definition modify (f : Store -> Store) : Prog unit :=
  fun s => Done (Normal tt) (f s).
Definition try_catch {A : Type} (m : Prog A) (handler : JsError -> Prog A)
  : Prog A := fun s => catch_step (m s) handler.
Definition try_catch_finally {A : Type} (m : Prog A)
    (handler : JsError -> Prog A) (fin : Prog unit) : Prog A :=
  fun s => finally_step (catch_step (m s) handler) fin.
Definition await {A : Type} (m : Prog A) : Prog A :=
  fun s => await_step (m s).
Definition await_promise (h : nat) : Prog unit :=
  fun s => Await h s (fun c s' =>
    match c with
    | None => Done (Normal tt) s'
    | Some e => Done (Thrown e) s'
    end).
Definition call_async (f : Prog unit) : Prog nat :=
  fun s => Spawn (f s) (fun h s' => Done (Normal h) s').

Notation "x <- m ;; k" := (bind m (fun x => k))
  (at level 100, m at next level, right associativity).
Notation "'exec' m ;; k" := (bind m (fun _ => k))
  (at level 100, m at next level, right associativity).

(** The network call itself: issued (and logged) at once, answered
    later. *)
Definition fetch_raw (req : Request) : Prog FetchResult :=
  fun s => Fetch req (log_request req s) (fun r s' => Done (Normal r) s').

(** [await $fetch(url, { method, body })] without interceptors. *)
Definition fetch (req : Request) : Prog Body :=
  r <- fetch_raw req ;;
  match r with
  | FetchOk b => ret b
  | FetchHttpError status m => throw (FetchError (Some status) m)
  | FetchNetworkError m => throw (FetchError None m)
  end.

Definition navigateTo (target : string) : Prog unit :=
  modify (log_navigate target).

Definition console_error (label : string) (e : JsError) : Prog unit :=
  modify (log_console (label +:+ " " +:+ error_message e)).

(** JavaScript truthiness of a string-or-null: [!!v]. *)
Definition truthy (v : option string) : bool :=
  match v with
  | Some (String _ _) => true
  | _ => false
  end.

(** [a || b] on strings. *)
Definition or_else (a b : string) : string :=
  match a with
  | String _ _ => a
  | EmptyString => b
  end.

(** [`Bearer ${token}`] *)
Definition bearer (token : option string) : string :=
  "Bearer " +:+ default "null" token.

Definition post (url : string) (body : Payload) : Request :=
  {| req_url := url; req_method := POST; req_baseURL := None;
     req_headers := ∅; req_body := Some body |}.

(** ** [src/composables/useApi.ts]

    The helper for calls that need no authentication.  Each of its five
    functions builds the options of one [useFetch] call, awaits it and
    packs the outcome into a response; [useFetch] is a parameter. *)
Module UseApi.

Inductive HttpMethod := GET | POST | PUT | DELETE | PATCH.

(** The keys of [UseFetchOptions] the code writes; [None] is a key the
    object does not have. *)
Record Options := {
  baseURL : option string;
  headers : option (gmap string string);
  method : option HttpMethod;
  body : option string }.

(** What [await useFetch(...)] gives: the [data] and [error] refs, or an
    exception. *)
Inductive Awaited :=
| Resolved (data : option Body) (error : option JsError)
| Rejected (e : JsError).

Record ApiResponse := {
  data : option Body;
  error : option JsError;
  pending : bool }.

(** One key of [{ ...base, ...over }]. *)
Definition spread_key {A : Type} (base over : option A) : option A :=
  match over with
  | Some v => Some v
  | None => base
  end.

(** [{ ...base, ...over }] *)
Definition spread (base over : Options) : Options :=
  {| baseURL := spread_key (baseURL base) (baseURL over);
     headers := spread_key (headers base) (headers over);
     method := spread_key (method base) (method over);
     body := spread_key (body base) (body over) |}.

(** [config.public.apiBaseUrl || 'http://localhost:3000/api'] *)
Definition defaultOptions (apiBaseUrl : option string) : Options :=
  {| baseURL :=
       Some (match apiBaseUrl with
             | Some (String _ _ as url) => url
             | _ => "http://localhost:3000/api"
             end);
     headers := Some {[ "Content-Type" := "application/json" ]};
     method := None;
     body := None |}.

(** [{ ...defaultOptions, ...options, method }], passed by [get] and
    [delete]. *)
Definition options_without_body (apiBaseUrl : option string)
    (meth : HttpMethod) (options : Options) : Options :=
  let o := spread (defaultOptions apiBaseUrl) options in
  {| baseURL := baseURL o; headers := headers o; method := Some meth;
     body := body o |}.

(** [{ ...defaultOptions, ...options, method, body }], passed by [post],
    [put] and [patch]: the key [body] is written also when the argument
    is [undefined]. *)
Definition options_with_body (apiBaseUrl : option string)
    (meth : HttpMethod) (payload : option string) (options : Options)
  : Options :=
  let o := spread (defaultOptions apiBaseUrl) options in
  {| baseURL := baseURL o; headers := headers o; method := Some meth;
     body := payload |}.

(** The [try]/[catch]/[finally] around the call, on the response that
    starts as [{ data: null, error: null, pending: true }]. *)
Definition settle (awaited : Awaited) : ApiResponse :=
  let response := {| data := None; error := None; pending := true |} in
  let tried : ApiResponse + JsError :=
    match awaited with
    | Rejected e => inr e
    | Resolved d (Some e) => inr e
    | Resolved d None =>
        inl {| data := d; error := error response;
               pending := pending response |}
    end in
  let caught :=
    match tried with
    | inl response' => response'
    | inr err =>
        {| data := data response; error := Some err;
           pending := pending response |}
    end in
  {| data := data caught; error := error caught; pending := false |}.

Section Functions.

Variable apiBaseUrl : option string.
Variable useFetch : string -> Options -> Awaited.

Definition get (endpoint : string) (options : Options) : ApiResponse :=
  settle (useFetch endpoint (options_without_body apiBaseUrl GET options)).

Definition post (endpoint : string) (payload : option string)
    (options : Options) : ApiResponse :=
  settle (useFetch endpoint
            (options_with_body apiBaseUrl POST payload options)).

Definition put (endpoint : string) (payload : option string)
    (options : Options) : ApiResponse :=
  settle (useFetch endpoint
            (options_with_body apiBaseUrl PUT payload options)).

Definition del (endpoint : string) (options : Options) : ApiResponse :=
  settle (useFetch endpoint
            (options_without_body apiBaseUrl DELETE options)).

Definition patch (endpoint : string) (payload : option string)
    (options : Options) : ApiResponse :=
  settle (useFetch endpoint
            (options_with_body apiBaseUrl PATCH payload options)).

End Functions.

(** Vocabulary of the properties. *)

(** The response reports the outcome of the call: the data when there is
    no error, the error and no data otherwise. *)
Definition reports (awaited : Awaited) (response : ApiResponse) : Prop :=
  pending response = false
  /\ match awaited with
     | Resolved d None => data response = d /\ error response = None
     | Resolved _ (Some e) | Rejected e =>
         data response = None /\ error response = Some e
     end.

Definition with_method (m : option HttpMethod) (o : Options) : Options :=
  {| baseURL := baseURL o; headers := headers o; method := m;
     body := body o |}.

Definition with_body (b : option string) (o : Options) : Options :=
  {| baseURL := baseURL o; headers := headers o; method := method o;
     body := b |}.

End UseApi.

(** ** Sample data

    A decoder that knows two tokens, one that expires at second 100 and
    one that expires at second 5000, and the session of a signed-in user
    holding the first of them at second 100; the theorems below are
    exercised on these. *)
Definition sample_decode (token : string) : option JwtPayload :=
  if String.eqb token "token-100" then
    Some {| sub := "u1"; exp := 100; iat := 0; roles := None;
            email := "u1@example.org" |}
  else if String.eqb token "token-5000" then
    Some {| sub := "u1"; exp := 5000; iat := 100;
            roles := Some ["admin"]; email := "u1@example.org" |}
  else None.

Definition sample_user : AuthUser :=
  {| u_id := "u1"; u_roles := []; u_email := "u1@example.org" |}.

Definition sample_store : Store :=
  {| accessToken := Some "token-100"; refreshToken := Some "refresh-1";
     user := Some sample_user; loading := false; refreshQueue := None;
     now := 100000; netlog := []; navlog := []; console := [];
     loadingWrites := [] |}.

Definition signed_out : Store :=
  {| accessToken := None; refreshToken := None; user := None;
     loading := false; refreshQueue := None; now := 50000; netlog := [];
     navlog := []; console := []; loadingWrites := [] |}.

(** A network that answers every call with an access token that does not
    decode. *)
Definition undecodable_answer (_ : Request) : FetchResult :=
  FetchOk (BodyTokens {| at_accessToken := "garbage";
                         at_refreshToken := "refresh-2" |}).

Section Pipeline.

(** [jwtDecode] of the jwt-decode package: [None] when it throws.
    [apiBase] is [config.public.apiBase]. *)
Variable jwtDecode : string -> option JwtPayload.
Variable apiBase : string.

(** [jwtDecode(v)] on a value that may be [null] or [undefined], on which
    the package throws as well. *)
Definition decode (v : option string) : option JwtPayload :=
  match v with
  | Some token => jwtDecode token
  | None => None
  end.

(** ** [src/composables/useAuth.ts] *)

Definition isAuthenticated (s : Store) : bool :=
  truthy (accessToken s) && match user s with Some _ => true | None => false end.

(** The getter of the computed [isTokenExpired] (lines 40-47): what a read
    of [isTokenExpired.value] gives when the computed is evaluated at that
    read.  What it gives when the computed has kept a value is modelled
    by [read_isTokenExpired] below. *)
Definition isTokenExpired (s : Store) : bool :=
  if negb (truthy (accessToken s)) then true
  else
    match decode (accessToken s) with
    | Some payload => (exp payload * 1000 - 10000 <=? now s)%Z
    | None => true
    end.

(** The error [jwtDecode] throws stands for all of the package's
    [InvalidTokenError]s, whose messages differ. *)
Definition parseUserFromToken (token : option string) : Prog AuthUser :=
  match decode token with
  | Some payload =>
      ret {| u_id := sub payload;
             u_roles := default [] (roles payload);
             u_email := or_else (email payload) "" |}
  | None => throw (InvalidTokenError "Invalid token specified")
  end.

Definition login (credentials : LoginCredentials) : Prog unit :=
  exec modify (set_loading true) ;;
  try_catch_finally
    (b <- fetch (post "/api/auth/login" (PCredentials credentials)) ;;
     let newAccessToken := body_accessToken b in
     let newRefreshToken := body_refreshToken b in
     exec modify (set_accessToken newAccessToken) ;;
     exec modify (set_refreshToken newRefreshToken) ;;
     u <- parseUserFromToken newAccessToken ;;
     modify (set_user (Some u)))
    (fun error =>
       throw (AuthError INVALID_CREDENTIALS
                (or_else (error_message error) "Invalid credentials")))
    (modify (set_loading false)).

Definition refreshAccessToken : Prog (option string) :=
  s <- get ;;
  if negb (truthy (refreshToken s)) then
    throw (AuthError REFRESH_FAILED "No refresh token available")
  else
    try_catch
      (b <- fetch (post "/api/auth/refresh"
                     (PRefreshToken (refreshToken s))) ;;
       let newAccessToken := body_accessToken b in
       exec modify (set_accessToken newAccessToken) ;;
       u <- parseUserFromToken newAccessToken ;;
       exec modify (set_user (Some u)) ;;
       ret newAccessToken)
      (fun error =>
         throw (AuthError REFRESH_FAILED
                  (or_else (error_message error) "Failed to refresh token"))).

Definition logout : Prog unit :=
  exec modify (set_loading true) ;;
  try_catch_finally
    (s <- get ;;
     if truthy (refreshToken s) then
       _ <- fetch (post "/api/auth/logout"
                     (PRefreshToken (refreshToken s))) ;;
       ret tt
     else ret tt)
    (fun error => console_error "Logout error:" error)
    (exec modify (set_accessToken None) ;;
     exec modify (set_refreshToken None) ;;
     exec modify (set_user None) ;;
     modify (set_loading false)).

Definition hasRole (role : string) (s : Store) : bool :=
  match user s with
  | Some u => existsb (String.eqb role) (u_roles u)
  | None => false
  end.

Definition initialize : Prog unit :=
  exec modify (set_loading true) ;;
  try_catch_finally
    (s <- get ;;
     if truthy (accessToken s) then
       if isTokenExpired s then
         _ <- await refreshAccessToken ;;
         ret tt
       else
         u <- parseUserFromToken (accessToken s) ;;
         modify (set_user (Some u))
     else ret tt)
    (fun _ =>
       exec modify (set_accessToken None) ;;
       exec modify (set_refreshToken None) ;;
       modify (set_user None))
    (modify (set_loading false)).

(** ** [src/composables/useAuthApi.ts] *)

Definition Headers : Type := gmap string string.

(** An [onRequest] interceptor is handed the request context and may
    replace [options.headers]; it is embedded as a program from the
    headers it finds to the headers it leaves.  An [onResponseError]
    interceptor is handed the response, of which the status is read. *)
Definition RequestHook : Type := Headers -> Prog Headers.
Definition ResponseHook : Type := Z -> Prog unit.

(** The options object a caller passes in ([ApiOptions<T>]); [None] is a
    key the object does not have. *)
Record ApiOptions := {
  opt_baseURL : option string;
  opt_headers : option Headers;
  opt_onRequest : option RequestHook;
  opt_onResponseError : option ResponseHook }.

Definition no_options : ApiOptions :=
  {| opt_baseURL := None; opt_headers := None;
     opt_onRequest := None; opt_onResponseError := None |}.

Record FetchOptions := {
  baseURL : option string;
  headers : Headers;
  onRequest : option RequestHook;
  onResponseError : option ResponseHook;
  method : option Method;
  body : option Payload }.

(** The refresh started by the first caller that finds the token expired
    (lines 75-84): the async arrow function whose promise becomes
    [refreshQueue]. *)
Definition start_refresh : Prog unit :=
  try_catch_finally
    (_ <- await refreshAccessToken ;; ret tt)
    (fun error =>
       _ <- call_async logout ;;
       navigateTo "/signin")
    (modify (set_refreshQueue None)).

(** Lines 88-93 of [onRequest]: the Authorization header is rebuilt from
    the access token of the moment. *)
Definition update_authorization (options_headers : Headers) : Prog Headers :=
  s <- get ;;
  let currentHeaders := options_headers in
  ret (<["Authorization" := bearer (accessToken s)]> currentHeaders).

(** [onRequest] (lines 67-95) of a gateway whose computed is evaluated at
    the read of line 69; [gateway_onRequest_reading] below is the
    interceptor for whatever the computed gives. *)
Definition gateway_onRequest : RequestHook := fun options_headers =>
  s <- get ;;
  if isTokenExpired s then
    exec (match refreshQueue s with
          | Some pending => await_promise pending
          | None =>
              promise <- call_async start_refresh ;;
              exec modify (set_refreshQueue (Some promise)) ;;
              await_promise promise
          end) ;;
    update_authorization options_headers
  else ret options_headers.

Definition gateway_onResponseError : ResponseHook := fun status =>
  if (status =? 401)%Z then
    exec await logout ;;
    navigateTo "/signin"
  else ret tt.

(** Object spread [{ ...base, ...over }] on header maps: the keys of
    [over] win. *)
Definition spread (base over : Headers) : Headers := over ∪ base.

Definition createFetchOptions (options : ApiOptions) (s : Store)
  : FetchOptions :=
  let baseHeaders : Headers :=
    <["Authorization" := bearer (accessToken s)]>
      (<["Content-Type" := "application/json"]> ∅) in
  let headers := spread baseHeaders (default ∅ (opt_headers options)) in
  (* { baseURL, headers, onRequest, onResponseError, ...options } *)
  {| baseURL := Some (default apiBase (opt_baseURL options));
     headers := default headers (opt_headers options);
     onRequest := Some (default gateway_onRequest (opt_onRequest options));
     onResponseError :=
       Some (default gateway_onResponseError (opt_onResponseError options));
     method := None;
     body := None |}.

(** [$fetch(url, fetchOptions)] of ofetch: the [onRequest] interceptor is
    awaited before the request is dispatched with the headers it leaves;
    an answer with an error status runs the [onResponseError] interceptor
    and then rejects. *)
Definition dispatch (url : string) (fetchOptions : FetchOptions)
    (hdrs : Headers) : Prog Body :=
  r <- fetch_raw {| req_url := url;
                    req_method := default GET (method fetchOptions);
                    req_baseURL := baseURL fetchOptions;
                    req_headers := hdrs;
                    req_body := body fetchOptions |} ;;
  match r with
  | FetchOk b => ret b
  | FetchHttpError status m =>
      exec match onResponseError fetchOptions with
           | Some hook => await (hook status)
           | None => ret tt
           end ;;
      throw (FetchError (Some status) m)
  | FetchNetworkError m => throw (FetchError None m)
  end.

Definition dollar_fetch (url : string) (fetchOptions : FetchOptions)
  : Prog Body :=
  hdrs <- match onRequest fetchOptions with
          | Some hook => await (hook (headers fetchOptions))
          | None => ret (headers fetchOptions)
          end ;;
  dispatch url fetchOptions hdrs.

(** The fetch options [request] builds: [{ ...createFetchOptions(options),
    method }], and the body when there is data. *)
Definition request_options (meth : Method) (data : option string)
    (options : ApiOptions) (s : Store) : FetchOptions :=
  let created := createFetchOptions options s in
  {| baseURL := baseURL created; headers := headers created;
     onRequest := onRequest created;
     onResponseError := onResponseError created;
     method := Some meth;
     body := PData <$> data |}.

Definition request (meth : Method) (url : string) (data : option string)
    (options : ApiOptions) : Prog Body :=
  s <- get ;;
  if negb (isAuthenticated s) then
    throw (AuthError UNAUTHORIZED "Authentication required")
  else
    dollar_fetch url (request_options meth data options s).

Definition api_get (url : string) (options : ApiOptions) : Prog Body :=
  request GET url None options.
Definition api_post (url : string) (data : string) (options : ApiOptions)
  : Prog Body := request POST url (Some data) options.
Definition api_put (url : string) (data : string) (options : ApiOptions)
  : Prog Body := request PUT url (Some data) options.
Definition api_delete (url : string) (options : ApiOptions) : Prog Body :=
  request DELETE url None options.

(** ** Running one program on its own

    [run net st] answers every network call of [st] with [net] and resumes
    [st] on the store it left, as when nothing else is scheduled in
    between.  A program that waits for another promise or starts one is
    not a program on its own. *)
Fixpoint run {A : Type} (net : Request -> FetchResult) (st : Step A)
  : option (Completion A * Store) :=
  match st with
  | Done c s => Some (c, s)
  | Fetch req s k => run net (k (net req) s)
  | Yield s k => run net (k s)
  | Await _ _ _ => None
  | Spawn _ _ => None
  end.

(** [settles P st]: whatever the network answers, whatever the promises
    awaited settle to and whatever the store has become at each
    resumption, [st] settles in a completion and a store that satisfy
    [P]. *)
Fixpoint settles {A : Type} (P : Completion A -> Store -> Prop)
    (st : Step A) : Prop :=
  match st with
  | Done c s => P c s
  | Fetch _ _ k => forall r s', settles P (k r s')
  | Yield _ k => forall s', settles P (k s')
  | Await _ _ k => forall c s', settles P (k c s')
  | Spawn _ k => forall h s', settles P (k h s')
  end.

(** [pending P st]: in a run of [st] on its own, [P] holds of the store at
    every suspension. *)
Fixpoint pending {A : Type} (P : Store -> Prop) (st : Step A) : Prop :=
  match st with
  | Done _ _ => True
  | Fetch _ s k => P s /\ forall r, pending P (k r s)
  | Yield s k => P s /\ pending P (k s)
  | Await _ s k => P s /\ forall c, pending P (k c s)
  | Spawn _ k => forall h s', pending P (k h s')
  end.

(** ** The event loop

    A task is a suspended program; the pool maps promises to tasks. *)
Inductive Task : Type :=
| TFetch {A : Type} (req : Request) (k : FetchResult -> Store -> Step A)
| TYield {A : Type} (k : Store -> Step A)
| TAwait {A : Type} (h : nat) (k : option JsError -> Store -> Step A)
| TDone {A : Type} (c : Completion A).

Record Sched := {
  store : Store;
  pool : gmap nat Task;
  next : nat }.

(** [drive st h p n] files the program [st], which has just run up to a
    suspension, under the promise [h]: its store becomes the current one.
    An async function it called on the way has run first and is filed
    under a fresh promise. *)
Fixpoint drive {A : Type} (st : Step A) (h : nat) (p : gmap nat Task)
    (n : nat) : Sched :=
  match st with
  | Done c s => {| store := s; pool := <[h := TDone c]> p; next := n |}
  | Fetch req s k =>
      {| store := s; pool := <[h := TFetch req k]> p; next := n |}
  | Yield s k => {| store := s; pool := <[h := TYield k]> p; next := n |}
  | Await h' s k =>
      {| store := s; pool := <[h := TAwait h' k]> p; next := n |}
  | Spawn child k =>
      let sc := drive child n p (S n) in
      drive (k n (store sc)) h (pool sc) (next sc)
  end.

Definition settled_as {A : Type} (c : Completion A) : option JsError :=
  match c with
  | Normal _ => None
  | Thrown e => Some e
  end.

(** Resuming the task of promise [h]: a network call is answered with
    [r]; a task waiting for a promise resumes only once that promise has
    settled; a settled task stays as it is. *)
Definition resume (h : nat) (r : FetchResult) (sc : Sched) : Sched :=
  match pool sc !! h with
  | Some (TFetch _ k) => drive (k r (store sc)) h (pool sc) (next sc)
  | Some (TYield k) => drive (k (store sc)) h (pool sc) (next sc)
  | Some (TAwait h' k) =>
      match pool sc !! h' with
      | Some (TDone c) =>
          drive (k (settled_as c) (store sc)) h (pool sc) (next sc)
      | _ => sc
      end
  | _ => sc
  end.

(** A top-level call of an async function of the application. *)
Definition start {A : Type} (m : Prog A) (sc : Sched) : Sched :=
  drive (m (store sc)) (next sc) (pool sc) (S (next sc)).

(** A call of the gateway: [api.get(url, options)] and the like. *)
Record Call := {
  call_method : Method;
  call_url : string;
  call_data : option string;
  call_options : ApiOptions }.

Definition perform (c : Call) : Prog Body :=
  request (call_method c) (call_url c) (call_data c) (call_options c).

(** What happens next: the application calls the gateway, signs in or
    signs out, the event loop resumes a task (with the answer of the
    network, if that is what it waits for), or time passes.  A call is
    one whose read of the computed [isTokenExpired] is evaluated at the
    read.  A gateway being made, which starts [initialize], a call that
    reads a value the computed has kept, and a direct call of
    [refreshAccessToken] are events of the client, [ClientEvent] below. *)
Inductive Event :=
| EvCall (c : Call)
| EvLogin (credentials : LoginCredentials)
| EvLogout
| EvResume (h : nat) (r : FetchResult)
| EvClock (t : Z).

Definition step (ev : Event) (sc : Sched) : Sched :=
  match ev with
  | EvCall c => start (perform c) sc
  | EvLogin credentials => start (login credentials) sc
  | EvLogout => start logout sc
  | EvResume h r => resume h r sc
  | EvClock t =>
      {| store := set_now t (store sc); pool := pool sc; next := next sc |}
  end.

Definition run_events (evs : list Event) (sc : Sched) : Sched :=
  foldl (fun sc ev => step ev sc) sc evs.

Definition idle (s : Store) : Sched :=
  {| store := s; pool := ∅; next := 0 |}.

(** ** The computed [isTokenExpired] and the gateway that reads it

    [isTokenExpired] of [useAuth] is a Vue [computed] (line 39), and the
    function [isTokenExpired] above is its getter.  A read of
    [isTokenExpired.value] evaluates the getter when the computed holds no
    value, and keeps the result; later reads give the kept value until
    [accessToken], the one reactive value the getter reads, changes.
    [Date.now()] is not reactive: the passing of time does not renew the
    value.

    Every call of [useAuth()] makes a computed of its own, so a gateway,
    which calls [useAuth()] once (line 47 of [useAuthApi.ts]), reads the
    same computed for as long as it is in use.  A cell is what that
    computed holds: [None] when it has to be evaluated at the next read. *)
Definition read_isTokenExpired (cell : option bool) (s : Store)
  : bool * option bool :=
  match cell with
  | Some kept => (kept, cell)
  | None => (isTokenExpired s, Some (isTokenExpired s))
  end.

(** The cell once the store has gone from [before] to [after]: a change
    of [accessToken] leaves the computed to be evaluated at its next
    read. *)
Definition renewed (before after : Store) (cell : option bool)
  : option bool :=
  if decide (accessToken after = accessToken before) then cell else None.

(** [onRequest] (lines 67-95) when the read of [auth.isTokenExpired.value]
    on line 69 gives [expired]. *)
Definition gateway_onRequest_reading (expired : bool) : RequestHook :=
  fun options_headers =>
  s <- get ;;
  if expired then
    exec (match refreshQueue s with
          | Some pending => await_promise pending
          | None =>
              promise <- call_async start_refresh ;;
              exec modify (set_refreshQueue (Some promise)) ;;
              await_promise promise
          end) ;;
    update_authorization options_headers
  else ret options_headers.

(** [request] (lines 109-132) of a gateway whose computed gives [expired]
    when its [onRequest] reads it. *)
Definition request_reading (expired : bool) (meth : Method) (url : string)
    (data : option string) (options : ApiOptions) : Prog Body :=
  s <- get ;;
  if negb (isAuthenticated s) then
    throw (AuthError UNAUTHORIZED "Authentication required")
  else
    let fetchOptions := request_options meth data options s in
    dollar_fetch url
      {| baseURL := baseURL fetchOptions;
         headers := headers fetchOptions;
         onRequest :=
           Some (default (gateway_onRequest_reading expired)
                   (opt_onRequest options));
         onResponseError := onResponseError fetchOptions;
         method := method fetchOptions;
         body := body fetchOptions |}.

Definition perform_reading (expired : bool) (c : Call) : Prog Body :=
  request_reading expired (call_method c) (call_url c) (call_data c)
    (call_options c).

(** The client: the event loop and the computed of the gateway in use. *)
Record Client := {
  sched : Sched;
  expired_cell : option bool }.

(** What happens next on the client.
    - [CeUseAuthApi]: a component calls [useAuthApi()].  Its [useAuth()]
      makes a new computed and, on the client, calls [initialize()]
      without awaiting it (lines 173-175); [initialize] reads the computed
      when there is an access token (lines 155-156).
    - [CeCall]: a call through that gateway; [onRequest] reads the
      computed once the call has passed the check of [isAuthenticated].
    - [CeRefresh]: the application calls [refreshAccessToken()], which
      [useAuth] exports.
    - The rest are the events of the event loop. *)
Inductive ClientEvent :=
| CeUseAuthApi
| CeCall (c : Call)
| CeRefresh
| CeLogin (credentials : LoginCredentials)
| CeLogout
| CeResume (h : nat) (r : FetchResult)
| CeClock (t : Z).

Definition client_step (ev : ClientEvent) (cl : Client) : Client :=
  let sc := sched cl in
  let s := store sc in
  let '(sc', cell) :=
    match ev with
    | CeUseAuthApi =>
        (start initialize sc,
         if truthy (accessToken s)
         then snd (read_isTokenExpired None s)
         else None)
    | CeCall c =>
        let '(expired, cell) := read_isTokenExpired (expired_cell cl) s in
        (start (perform_reading expired c) sc,
         if isAuthenticated s then cell else expired_cell cl)
    | CeRefresh => (start refreshAccessToken sc, expired_cell cl)
    | CeLogin credentials => (step (EvLogin credentials) sc, expired_cell cl)
    | CeLogout => (step EvLogout sc, expired_cell cl)
    | CeResume h r => (step (EvResume h r) sc, expired_cell cl)
    | CeClock t => (step (EvClock t) sc, expired_cell cl)
    end in
  {| sched := sc'; expired_cell := renewed s (store sc') cell |}.

Definition client_run (evs : list ClientEvent) (cl : Client) : Client :=
  foldl (fun cl ev => client_step ev cl) cl evs.

(** A client on which no gateway has been made yet. *)
Definition client (s : Store) : Client :=
  {| sched := idle s; expired_cell := None |}.

(** ** Vocabulary of the properties *)

(** The session holds no token and no user. *)
Definition cleared (s : Store) : Prop :=
  accessToken s = None /\ refreshToken s = None /\ user s = None.

(** The store a suspended program leaves. *)
Definition left_by {A : Type} (st : Step A) (s : Store) : Store :=
  match st with
  | Done _ s' | Fetch _ s' _ | Yield s' _ | Await _ s' _ => s'
  | Spawn _ _ => s
  end.

(** The loading flag along the operation [st] called on the store [s].
    - The first assignment the operation makes to the flag is [true], and
      it is made before the operation first hands control back.
    - The flag is up at every suspension of a run of [st] on its own.
    - Whatever the environment does meanwhile, [st] settles with the flag
      down, and the last assignment made to the flag is [false].
    - A run of [st] on its own does settle, with the flag down, and has
      made two assignments to it: [true], then [false]. *)
Definition raised_first {A : Type} (s : Store) (st : Step A) : Prop :=
  exists later,
    loadingWrites (left_by st s) = later ++ true :: loadingWrites s.

Definition lowered_last (s : Store) : Prop :=
  loading s = false /\ head (loadingWrites s) = Some false.

Definition loading_discipline {A : Type} (s : Store) (st : Step A) : Prop :=
  raised_first s st
  /\ pending (fun s' => loading s' = true) st
  /\ settles (fun _ s' => lowered_last s') st
  /\ forall net, exists c s',
       run net st = Some (c, s')
       /\ loading s' = false
       /\ loadingWrites s' = false :: true :: loadingWrites s.

(** The user is present exactly when the access token is, and is then the
    user decoded from that token. *)
Definition user_of (payload : JwtPayload) : AuthUser :=
  {| u_id := sub payload;
     u_roles := default [] (roles payload);
     u_email := or_else (email payload) "" |}.

Definition session_invariant (s : Store) : Prop :=
  (is_Some (user s) <-> is_Some (accessToken s))
  /\ forall u, user s = Some u ->
       exists payload,
         decode (accessToken s) = Some payload /\ u = user_of payload.

(** Interceptors a caller may pass that do nothing. *)
Definition inert_onRequest : RequestHook := fun options_headers =>
  ret options_headers.
Definition inert_onResponseError : ResponseHook := fun _ => ret tt.

(** The request a gateway call dispatches when no interceptor touches the
    headers. *)
Definition dispatched (meth : Method) (url : string) (data : option string)
    (options : ApiOptions) (s : Store) : Request :=
  {| req_url := url; req_method := meth;
     req_baseURL := Some (default apiBase (opt_baseURL options));
     req_headers := headers (createFetchOptions options s);
     req_body := PData <$> data |}.

(** *** The single refresh *)

Definition refresh_request (token : option string) : Request :=
  post "/api/auth/refresh" (PRefreshToken token).

Definition is_refresh_request (req : Request) : Prop :=
  exists token, req = refresh_request token.

(** A task that waits for the answer to a refresh call. *)
Definition awaits_refresh_call (t : Task) : Prop :=
  match t with
  | TFetch req _ => is_refresh_request req
  | _ => False
  end.

Definition unsettled (t : Task) : Prop :=
  match t with
  | TDone _ => False
  | _ => True
  end.

(** Options that leave the interceptors of the gateway in place. *)
Definition plain (options : ApiOptions) : Prop :=
  opt_onRequest options = None /\ opt_onResponseError options = None.

Definition plain_event (ev : Event) : Prop :=
  match ev with
  | EvCall c => plain (call_options c)
  | _ => True
  end.

(** [quiet q st]: resumed on a store whose refresh handle is [q], the
    program [st] issues no refresh call and leaves the handle as it finds
    it, now and after every later resumption. *)
Fixpoint quiet {A : Type} (q : option nat) (st : Step A) : Prop :=
  match st with
  | Done _ s => refreshQueue s = q
  | Fetch req s k =>
      refreshQueue s = q /\ ~ is_refresh_request req
      /\ forall r s', quiet (refreshQueue s') (k r s')
  | Yield s k =>
      refreshQueue s = q /\ forall s', quiet (refreshQueue s') (k s')
  | Await _ s k =>
      refreshQueue s = q /\ forall c s', quiet (refreshQueue s') (k c s')
  | Spawn child k =>
      quiet q child /\ forall h s', quiet (refreshQueue s') (k h s')
  end.

(** [refreshing q st]: [st] is the rest of a refresh in flight: it issues
    no further refresh call, leaves the handle as it finds it while it is
    suspended, and clears it when it settles. *)
Fixpoint refreshing {A : Type} (q : option nat) (st : Step A) : Prop :=
  match st with
  | Done _ s => refreshQueue s = None
  | Fetch req s k =>
      refreshQueue s = q /\ ~ is_refresh_request req
      /\ forall r s', refreshing (refreshQueue s') (k r s')
  | Yield s k =>
      refreshQueue s = q /\ forall s', refreshing (refreshQueue s') (k s')
  | Await _ s k =>
      refreshQueue s = q
      /\ forall c s', refreshing (refreshQueue s') (k c s')
  | Spawn child k =>
      quiet q child /\ forall h s', refreshing (refreshQueue s') (k h s')
  end.

(** The refresh as its starter leaves it: suspended, on the refresh call
    or on a microtask tick, with the handle untouched so far. *)
Definition refresh_started {A : Type} (q : option nat) (st : Step A) : Prop :=
  match st with
  | Fetch _ s k =>
      refreshQueue s = q /\ forall r s', refreshing (refreshQueue s') (k r s')
  | Yield s k =>
      refreshQueue s = q /\ forall s', refreshing (refreshQueue s') (k s')
  | _ => False
  end.

(** A caller that starts the refresh: the refresh runs up to its first
    suspension, and the caller publishes its promise [h] as the handle
    before it suspends itself; from then on the caller is quiet. *)
Definition starts_refresh {A : Type} (st : Step A) : Prop :=
  match st with
  | Spawn child k =>
      refresh_started None child /\ forall h s', quiet (Some h) (k h s')
  | _ => False
  end.

Definition quiet_task (t : Task) : Prop :=
  match t with
  | TFetch req k =>
      ~ is_refresh_request req
      /\ forall r s', quiet (refreshQueue s') (k r s')
  | TYield k => forall s', quiet (refreshQueue s') (k s')
  | TAwait _ k => forall c s', quiet (refreshQueue s') (k c s')
  | TDone _ => True
  end.

Definition refreshing_task (t : Task) : Prop :=
  match t with
  | TFetch _ k => forall r s', refreshing (refreshQueue s') (k r s')
  | TYield k => forall s', refreshing (refreshQueue s') (k s')
  | TAwait _ k => forall c s', refreshing (refreshQueue s') (k c s')
  | TDone _ => False
  end.

(** The invariant of the event loop: the task the handle names is a
    refresh in flight, and every other task is quiet. *)
Definition single_flight_at (q : option nat) (p : gmap nat Task) (n : nat)
  : Prop :=
  (forall h t, p !! h = Some t ->
     h < n /\ (quiet_task t \/ (q = Some h /\ refreshing_task t)))
  /\ (forall h, q = Some h -> exists t, p !! h = Some t /\ refreshing_task t).

Definition single_flight (sc : Sched) : Prop :=
  single_flight_at (refreshQueue (store sc)) (pool sc) (next sc).

(** The promise [c] waits for the promise [h]. *)
Definition waits_for (sc : Sched) (c h : nat) : Prop :=
  match pool sc !! c with
  | Some (TAwait h' _) => h' = h
  | _ => False
  end.

(** What a gateway call that found the token expired does once the
    promise it waits for has settled: [onRequest] rebuilds the
    Authorization header, and [$fetch] dispatches the request. *)
Definition caller_resumes (url : string) (fetchOptions : FetchOptions)
  : option JsError -> Store -> Step Body :=
  fun outcome s =>
    bind_step
      (await_step
         (bind_step
            (match outcome with
             | None => Done (Normal tt) s
             | Some e => Done (Thrown e) s
             end)
            (fun _ => update_authorization (headers fetchOptions))))
      (dispatch url fetchOptions).

Definition call_fetch_options (c : Call) (s : Store) : FetchOptions :=
  request_options (call_method c) (call_data c) (call_options c) s.

(** The task a suspended program is filed as. *)
Definition filed {A : Type} (st : Step A) : option Task :=
  match st with
  | Done c _ => Some (TDone c)
  | Fetch req _ k => Some (TFetch req k)
  | Yield _ k => Some (TYield k)
  | Await h _ k => Some (TAwait h k)
  | Spawn _ _ => None
  end.

(** The promise of the [i]-th of a series of calls the first of which
    starts the refresh: the refresh takes the promise after the first
    caller's. *)
Definition caller (first i : nat) : nat :=
  match i with
  | 0 => first
  | S _ => first + 1 + i
  end.

(** The refresh started on the store [s] and answered with [r] succeeds:
    there is a refresh token to send, and the answer carries an access
    token that decodes. *)
Definition refresh_succeeds (s : Store) (r : FetchResult) : Prop :=
  truthy (refreshToken s) = true
  /\ exists b, r = FetchOk b /\ is_Some (decode (body_accessToken b)).

(** The request a caller dispatches after it has waited for the refresh:
    the Authorization header is that of the access token [token]. *)
Definition dispatched_after (url : string) (fetchOptions : FetchOptions)
    (token : option string) : Request :=
  {| req_url := url;
     req_method := default GET (method fetchOptions);
     req_baseURL := baseURL fetchOptions;
     req_headers := <["Authorization" := bearer token]> (headers fetchOptions);
     req_body := body fetchOptions |}.

(** The store [s1] on which [logout] is called when the refresh answered
    with [r] has failed on the store [s]: that store, but for the access
    token when the answer carried one that does not decode. *)
Definition refresh_failed_on (s : Store) (r : FetchResult) (s1 : Store) : Prop :=
  refreshToken s1 = refreshToken s /\ user s1 = user s /\ refreshQueue s1 = refreshQueue s /\ navlog s1 = navlog s
  /\ netlog s1 = netlog s
  /\ (accessToken s1 = accessToken s \/ exists b, r = FetchOk b /\ accessToken s1 = body_accessToken b).

(** At this instant at most one refresh call is waiting for its answer,
    the task that waits for it is the one the handle names, and the
    promise the handle names has not settled. *)
Definition one_refresh_at_a_time (sc : Sched) : Prop :=
  (forall h1 h2 t1 t2,
     pool sc !! h1 = Some t1 -> awaits_refresh_call t1 ->
     pool sc !! h2 = Some t2 -> awaits_refresh_call t2 -> h1 = h2)
  /\ (forall h t,
        pool sc !! h = Some t -> awaits_refresh_call t ->
        refreshQueue (store sc) = Some h)
  /\ (forall h,
        refreshQueue (store sc) = Some h ->
        exists t, pool sc !! h = Some t /\ unsettled t).

(** The refresh request, if the refresh started on [s] sends one. *)
Definition refresh_calls (s : Store) : list Request :=
  if truthy (refreshToken s) then [refresh_request (refreshToken s)] else [].

(** The call of promise [c] is abandoned: it has thrown, and no request
    to [url] has been dispatched. *)
Definition abandoned (sc : Sched) (c : nat) (url : string) : Prop :=
  (exists (A : Type) (e : JsError),
     pool sc !! c = Some (TDone (@Thrown A e)))
  /\ forall req, req ∈ netlog (store sc) -> req_url req <> url.

(** The call of promise [c] has dispatched the request [req] and waits
    for the answer. *)
Definition in_flight (sc : Sched) (c : nat) (req : Request) : Prop :=
  match pool sc !! c with
  | Some (TFetch req' _) => req' = req
  | _ => False
  end.

Definition sample_base : string := "https://api.example.org".

Definition sample_call (url : string) : Call :=
  {| call_method := GET; call_url := url; call_data := None;
     call_options := no_options |}.

(** The refresh endpoint rejects the refresh token. *)
Definition rejected : FetchResult :=
  FetchHttpError 401 "refresh token revoked".

(** The refresh endpoint answers with the token that expires at second
    5000. *)
Definition refreshed : FetchResult :=
  FetchOk (BodyTokens {| at_accessToken := "token-5000";
                         at_refreshToken := "refresh-2" |}).

(** Options whose interceptors do nothing. *)
Definition inert_options : ApiOptions :=
  {| opt_baseURL := None; opt_headers := None;
     opt_onRequest := Some inert_onRequest;
     opt_onResponseError := Some inert_onResponseError |}.

(** Two callers find the token expired, the refresh is rejected and
    settles, and both callers are resumed. *)
Definition rejected_refresh_schedule : list Event :=
  [EvCall (sample_call "/ratings"); EvCall (sample_call "/shows");
   EvResume 1 rejected; EvResume 1 rejected;
   EvResume 0 rejected; EvResume 0 rejected;
   EvResume 2 rejected; EvResume 2 rejected].

(** The request of a sample call, as dispatched with the token [token]. *)
Definition sample_request (url token : string) : Request :=
  {| req_url := url; req_method := GET; req_baseURL := Some sample_base;
     req_headers :=
       <["Authorization" := "Bearer " +:+ token]>
         (<["Content-Type" := "application/json"]> ∅);
     req_body := None |}.

(** *** Further vocabulary *)

(** The message of the error [$fetch] rejects with. *)
Definition failure_message (r : FetchResult) : string :=
  match r with
  | FetchOk _ => ""
  | FetchHttpError _ m => m
  | FetchNetworkError m => m
  end.

Definition login_request (credentials : LoginCredentials) : Request :=
  post "/api/auth/login" (PCredentials credentials).

Definition logout_request (token : option string) : Request :=
  post "/api/auth/logout" (PRefreshToken token).

(** The sample session before its token has expired. *)
Definition unexpired_store : Store := set_now 50000 sample_store.

(** A network that gives every call the same answer. *)
Definition always (r : FetchResult) (_ : Request) : FetchResult := r.

Definition sample_credentials : LoginCredentials :=
  {| cred_email := "u1@example.org"; cred_password := "secret" |}.

Definition sample_payload : JwtPayload :=
  {| sub := "u1"; exp := 5000; iat := 100; roles := Some ["admin"];
     email := "u1@example.org" |}.

Definition sample_tokens : AuthTokens :=
  {| at_accessToken := "token-5000"; at_refreshToken := "refresh-2" |}.

(** Options that carry a header of the caller and nothing else. *)
Definition traced_options : ApiOptions :=
  {| opt_baseURL := None; opt_headers := Some {[ "X-Trace" := "1" ]};
     opt_onRequest := None; opt_onResponseError := None |}.

(** The events among which the refresh is coordinated by the handle:
    calls through a gateway with its own interceptors, and the events of
    the event loop. *)
Definition coordinated (ev : ClientEvent) : Prop :=
  match ev with
  | CeUseAuthApi | CeRefresh => False
  | CeCall c => plain (call_options c)
  | CeLogin _ | CeLogout | CeResume _ _ | CeClock _ => True
  end.

(** * Properties *)

(** ** The expiry check *)

Lemma truthy_Some_ne (token : string) :
  truthy (Some token) = true <-> token <> "".
Proof. destruct token; simpl; split; congruence. Qed.

(** The getter of [isTokenExpired], which a read evaluates when the
    computed holds no value, is a total boolean function (nothing is
    raised).  It is true when there is no access token (none, or the empty string,
    which [!accessToken.value] treats alike); for a token that decodes it
    is true exactly when [now >= exp * 1000 - 10000], so false one
    millisecond before that bound and true at it; and it is true for a
    token that does not decode. *)
Theorem isTokenExpired_spec (s : Store) :
  (truthy (accessToken s) = false -> isTokenExpired s = true)
  /\ (forall token payload,
        accessToken s = Some token -> token <> "" ->
        jwtDecode token = Some payload ->
        (isTokenExpired s = true <-> (now s >= exp payload * 1000 - 10000)%Z)
        /\ (now s = exp payload * 1000 - 10001 ->
            isTokenExpired s = false)%Z
        /\ (now s = exp payload * 1000 - 10000 ->
            isTokenExpired s = true)%Z)
  /\ (forall token,
        accessToken s = Some token -> jwtDecode token = None ->
        isTokenExpired s = true).
Proof.
  unfold isTokenExpired. split; [|split].
  - intros ->. reflexivity.
  - intros token payload Htok Hne Hdec.
    apply truthy_Some_ne in Hne. rewrite Htok, Hne. simpl. rewrite Hdec.
    rewrite Z.leb_le. repeat split; intros; try apply Z.leb_gt; lia.
  - intros token Htok Hdec. rewrite Htok. simpl. rewrite Hdec.
    destruct token; reflexivity.
Qed.

(** ** Logout *)

(** A run of [logout] on its own. *)
Lemma logout_run (s : Store) net :
  exists s', run net (logout s) = Some (Normal tt, s') /\ cleared s'.
Proof.
  unfold logout, cleared. cbn. destruct (truthy (refreshToken s)); cbn.
  - destruct (net _) as [b|status m|m]; cbn; eauto 6.
  - eauto 6.
Qed.

(** C4. [logout] never throws and leaves the access token, the refresh
    token and the user absent: whatever the logout endpoint answers and
    whatever the store has become while the call was pending
    ([settles]), and in particular in a run on its own ([run]), where it
    does settle. *)
Theorem logout_always_clears (s : Store) :
  settles (fun c s' => c = Normal tt /\ cleared s') (logout s)
  /\ forall net, exists s',
       run net (logout s) = Some (Normal tt, s') /\ cleared s'.
Proof.
  split; [|intros net; apply logout_run].
  unfold logout, cleared. cbn. destruct (truthy (refreshToken s)); cbn.
  - intros [b|status m|m] s'; cbn; auto.
  - auto.
Qed.

(** ** Refresh without a refresh token *)

(** C5. Without a refresh token (none, or the empty string)
    [refreshAccessToken] is settled at once: it throws
    [AuthError(REFRESH_FAILED, "No refresh token available")] without a
    suspension, hence without a network call, and the store it leaves is
    the store it was given, request log included. *)
Theorem refreshAccessToken_without_refresh_token (s : Store) :
  truthy (refreshToken s) = false ->
  refreshAccessToken s =
    Done (Thrown (AuthError REFRESH_FAILED "No refresh token available")) s.
Proof. intros H. unfold refreshAccessToken. cbn. rewrite H. reflexivity. Qed.

(** ** The precondition of the gateway *)

(** C6. A gateway call made while [isAuthenticated] is false throws
    [AuthError(UNAUTHORIZED, "Authentication required")] at once, for each
    of [get], [post], [put] and [delete]: the program is settled without a
    suspension, so no request is dispatched, and the store (request log
    included) is untouched. *)
Theorem request_unauthenticated (s : Store) (url : string)
    (options : ApiOptions) :
  isAuthenticated s = false ->
  let unauthorized :=
    Done (Thrown (AuthError UNAUTHORIZED "Authentication required")) s in
  (forall meth data, request meth url data options s = unauthorized)
  /\ api_get url options s = unauthorized
  /\ (forall data, api_post url data options s = unauthorized)
  /\ (forall data, api_put url data options s = unauthorized)
  /\ api_delete url options s = unauthorized.
Proof.
  intros H. unfold api_get, api_post, api_put, api_delete, request.
  cbn. rewrite H. cbn. auto.
Qed.

(** ** The loading flag *)

Ltac step_cases :=
  repeat (cbn; intros;
          try match goal with
              | |- _ /\ _ => split
              | |- context [match ?x with _ => _ end] => destruct x eqn:?
              end).

(** C10. [login], [logout] and [initialize] assign [true] to the loading
    flag before anything else: it is the first assignment they make to the
    flag, made before the operation first hands control back, so that the
    flag is up at every point where the operation is suspended.  They
    assign [false] in their [finally] block: the flag is down when the
    operation has settled, normally or by throwing, whatever the network
    answers and whatever has happened to the store meanwhile, and that
    assignment is the last one made.  On its own the operation does settle,
    having assigned [true] and then [false] and nothing else. *)
Theorem loading_flag (s : Store) (credentials : LoginCredentials) :
  loading_discipline s (login credentials s)
  /\ loading_discipline s (logout s)
  /\ loading_discipline s (initialize s).
Proof.
  unfold loading_discipline, raised_first, lowered_last, login, logout,
    initialize, refreshAccessToken, parseUserFromToken.
  repeat split; step_cases; eauto;
    first [ by exists [] | by exists [false] ].
Qed.

(** ** Refresh and login: what a failure leaves behind *)

(** When the refresh endpoint does not answer with a body, the failure is
    [REFRESH_FAILED] and neither token has been written. *)
Lemma refreshAccessToken_rejected (s : Store) net :
  truthy (refreshToken s) = true ->
  (forall b, net (post "/api/auth/refresh" (PRefreshToken (refreshToken s)))
             <> FetchOk b) ->
  exists m s',
    run net (refreshAccessToken s) =
      Some (Thrown (AuthError REFRESH_FAILED m), s')
    /\ accessToken s' = accessToken s
    /\ refreshToken s' = refreshToken s
    /\ user s' = user s.
Proof.
  intros Hrt Hnet. unfold refreshAccessToken. cbn. rewrite Hrt. cbn.
  destruct (net _) as [b|status m|m] eqn:E; cbn.
  - exfalso. exact (Hnet b eq_refl).
  - eauto 6.
  - eauto 6.
Qed.

(** When it answers with an access token that does not decode, the failure
    is [REFRESH_FAILED] as well, but the access token has been replaced
    before the decoding was tried, and the user is still the former one. *)
Lemma refreshAccessToken_undecodable (s : Store) net b :
  truthy (refreshToken s) = true ->
  net (post "/api/auth/refresh" (PRefreshToken (refreshToken s)))
    = FetchOk b ->
  decode (body_accessToken b) = None ->
  exists m s',
    run net (refreshAccessToken s) =
      Some (Thrown (AuthError REFRESH_FAILED m), s')
    /\ accessToken s' = body_accessToken b
    /\ refreshToken s' = refreshToken s
    /\ user s' = user s.
Proof.
  intros Hrt Hnet Hdec. unfold refreshAccessToken, parseUserFromToken.
  cbn. rewrite Hrt. cbn. rewrite Hnet. cbn. rewrite Hdec. cbn. eauto 7.
Qed.

(** [logout] establishes the session invariant. *)
Lemma logout_session_invariant (s : Store) net :
  exists c s', run net (logout s) = Some (c, s') /\ session_invariant s'.
Proof.
  destruct (logout_run s net) as (s' & Hrun & Ha & Hr & Hu).
  exists (Normal tt), s'. split; [exact Hrun|].
  unfold session_invariant. rewrite Ha, Hu. split.
  - split; intros [x Hx]; discriminate.
  - intros u Hu'. discriminate.
Qed.

(** X21. [login] keeps the session invariant when the endpoint rejects the
    credentials, and establishes it when the access token it answers with
    decodes. *)
Lemma login_session_invariant (s : Store) credentials net :
  session_invariant s ->
  (forall b, net (post "/api/auth/login" (PCredentials credentials))
             = FetchOk b -> is_Some (decode (body_accessToken b))) ->
  exists c s',
    run net (login credentials s) = Some (c, s') /\ session_invariant s'.
Proof.
  intros Hinv Hnet. unfold login, parseUserFromToken. cbn.
  destruct (net _) as [b|status m|m] eqn:E; cbn.
  - destruct (Hnet b eq_refl) as [payload Hp]. rewrite Hp. cbn.
    do 2 eexists. split; [reflexivity|].
    unfold session_invariant; cbn. split.
    + destruct (body_accessToken b); [|discriminate].
      split; intros _; eauto.
    + intros u [= <-]. eauto.
  - do 2 eexists. split; [reflexivity|]. exact Hinv.
  - do 2 eexists. split; [reflexivity|]. exact Hinv.
Qed.

(** X22. [initialize] establishes the session invariant whenever it finds
    an access token, and leaves the session as it is otherwise. *)
Lemma initialize_session_invariant (s : Store) net :
  session_invariant s \/ truthy (accessToken s) = true ->
  exists c s',
    run net (initialize s) = Some (c, s') /\ session_invariant s'.
Proof.
  intros Hpre.
  assert (Hclear : forall s0 : Store,
    accessToken s0 = None -> user s0 = None -> session_invariant s0).
  { intros s0 Ha Hu. unfold session_invariant. rewrite Ha, Hu.
    split; [split; intros [x Hx]; discriminate|discriminate]. }
  unfold initialize, refreshAccessToken, parseUserFromToken, isTokenExpired.
  cbn. destruct (truthy (accessToken s)) eqn:Hat; cbn.
  - destruct (decode (accessToken s)) as [payload|] eqn:Hdec; cbn.
    + destruct (exp payload * 1000 - 10000 <=? now s)%Z; cbn.
      * destruct (truthy (refreshToken s)); cbn.
        -- destruct (net _) as [b|status m|m]; cbn.
           ++ destruct (decode (body_accessToken b)) as [p'|] eqn:Hb; cbn.
              ** do 2 eexists. split; [reflexivity|].
                 unfold session_invariant; cbn. split.
                 --- destruct (body_accessToken b); [|discriminate].
                     split; intros _; eauto.
                 --- intros u [= <-]. eauto.
              ** do 2 eexists. split; [reflexivity|]. by apply Hclear.
           ++ do 2 eexists. split; [reflexivity|]. by apply Hclear.
           ++ do 2 eexists. split; [reflexivity|]. by apply Hclear.
        -- do 2 eexists. split; [reflexivity|]. by apply Hclear.
      * do 2 eexists. split; [reflexivity|].
        unfold session_invariant; cbn. split.
        -- destruct (accessToken s); [|discriminate].
           split; intros _; eauto.
        -- intros u [= <-]. eauto.
    + destruct (truthy (refreshToken s)); cbn.
      * destruct (net _) as [b|status m|m]; cbn.
        -- destruct (decode (body_accessToken b)) as [p'|] eqn:Hb; cbn.
           ++ do 2 eexists. split; [reflexivity|].
              unfold session_invariant; cbn. split.
              ** destruct (body_accessToken b); [|discriminate].
                 split; intros _; eauto.
              ** intros u [= <-]. eauto.
           ++ do 2 eexists. split; [reflexivity|]. by apply Hclear.
        -- do 2 eexists. split; [reflexivity|]. by apply Hclear.
        -- do 2 eexists. split; [reflexivity|]. by apply Hclear.
      * do 2 eexists. split; [reflexivity|]. by apply Hclear.
  - destruct Hpre as [Hinv|?]; [|discriminate].
    do 2 eexists. split; [reflexivity|]. exact Hinv.
Qed.

(** ** Interceptors passed by the caller *)

(** C9. The caller's options are spread last into the fetch options, so
    an [onRequest] handler among them is the [onRequest] handler of the
    call and an [onResponseError] handler among them is its
    [onResponseError] handler: the gateway's own handler of that name is
    replaced.  With a caller's [onRequest] that does nothing, a call made
    with an expired token starts no refresh and awaits none: it only
    dispatches the request, with the headers built before.  With a
    caller's [onResponseError] that does nothing (and the gateway's own
    [onRequest], on a token that has not expired), an answer with an error
    status, 401 included, triggers no logout and no redirect: the error
    is thrown and nothing but the dispatch has happened. *)
Theorem caller_hooks_replace_gateway_hooks (options : ApiOptions)
    (s : Store) :
  (forall hook, opt_onRequest options = Some hook ->
     onRequest (createFetchOptions options s) = Some hook)
  /\ (forall hook, opt_onResponseError options = Some hook ->
        onResponseError (createFetchOptions options s) = Some hook)
  /\ (forall meth url data b,
        isAuthenticated s = true ->
        opt_onRequest options = Some inert_onRequest ->
        run (fun _ => FetchOk b) (request meth url data options s) =
          Some (Normal b, log_request (dispatched meth url data options s) s))
  /\ (forall meth url data status m,
        isAuthenticated s = true ->
        isTokenExpired s = false ->
        opt_onRequest options = None ->
        opt_onResponseError options = Some inert_onResponseError ->
        run (fun _ => FetchHttpError status m)
          (request meth url data options s) =
          Some (Thrown (FetchError (Some status) m),
                log_request (dispatched meth url data options s) s)).
Proof.
  split; [|split; [|split]].
  - intros hook H. cbn. rewrite H. reflexivity.
  - intros hook H. cbn. rewrite H. reflexivity.
  - intros meth url data b Hauth H. unfold request, dispatched. cbn.
    rewrite Hauth. cbn. rewrite H. reflexivity.
  - intros meth url data status m Hauth Hexp Hreq H.
    unfold request, dispatched. cbn. rewrite Hauth. cbn.
    rewrite Hreq. cbn.
    unfold gateway_onRequest. cbn. rewrite Hexp. cbn.
    rewrite H. reflexivity.
Qed.

(** ** The single refresh *)

Lemma single_flight_at_next q p n m :
  single_flight_at q p n -> n <= m -> single_flight_at q p m.
Proof.
  intros [H1 H2] Hle. split; [|exact H2].
  intros h t Ht. destruct (H1 h t Ht) as [Hlt Hc]. split; [lia|exact Hc].
Qed.

Lemma single_flight_at_fresh q p n :
  single_flight_at q p n -> q <> Some n.
Proof.
  intros [H1 H2] ->. destruct (H2 n eq_refl) as (t & Ht & _).
  destruct (H1 n t Ht) as [Hlt _]. lia.
Qed.

(** Filing a quiet task under a promise other than the handle. *)
Lemma single_flight_at_insert_quiet q p n h t :
  single_flight_at q p n -> h < n -> q <> Some h -> quiet_task t ->
  single_flight_at q (<[h := t]> p) n.
Proof.
  intros [H1 H2] Hlt Hne Hq. split.
  - intros h' t' Hl. destruct (decide (h' = h)) as [->|Hd].
    + rewrite lookup_insert_eq in Hl. injection Hl as <-. auto.
    + rewrite lookup_insert_ne in Hl by congruence. eauto.
  - intros h' ->. destruct (H2 h' eq_refl) as (t' & Ht' & Hr).
    exists t'. rewrite lookup_insert_ne by congruence. auto.
Qed.

(** Filing what is left of the refresh under the handle. *)
Lemma single_flight_at_insert_refreshing p n h t :
  single_flight_at (Some h) p n -> h < n -> refreshing_task t ->
  single_flight_at (Some h) (<[h := t]> p) n.
Proof.
  intros [H1 H2] Hlt Hr. split.
  - intros h' t' Hl. destruct (decide (h' = h)) as [->|Hd].
    + rewrite lookup_insert_eq in Hl. injection Hl as <-. auto.
    + rewrite lookup_insert_ne in Hl by congruence. eauto.
  - intros h' [= <-]. exists t. rewrite lookup_insert_eq. auto.
Qed.

(** The refresh settles: the handle is cleared and every task is quiet. *)
Lemma single_flight_at_settle p n h t :
  single_flight_at (Some h) p n -> h < n -> quiet_task t ->
  single_flight_at None (<[h := t]> p) n.
Proof.
  intros [H1 H2] Hlt Hq. split; [|discriminate].
  intros h' t' Hl. destruct (decide (h' = h)) as [->|Hd].
  - rewrite lookup_insert_eq in Hl. injection Hl as <-. auto.
  - rewrite lookup_insert_ne in Hl by congruence.
    destruct (H1 h' t' Hl) as [Hlt' [Hq'|[[= ->] _]]]; [auto|congruence].
Qed.

Lemma drive_quiet (A : Type) (st : Step A) :
  forall q h p n,
    quiet q st -> single_flight_at q p n -> h < n -> q <> Some h ->
    single_flight (drive st h p n)
    /\ refreshQueue (store (drive st h p n)) = q
    /\ n <= next (drive st h p n).
Proof.
  induction st as [A c s|A req s k IH|A s k IH|A h' s k IH|A child IHc k IH];
    intros q h p n Hq Hinv Hlt Hne; cbn in *.
  - subst q. unfold single_flight; cbn. split; [|auto].
    apply single_flight_at_insert_quiet; cbn; auto.
  - destruct Hq as (<- & Hnr & Hk). unfold single_flight; cbn.
    split; [|auto]. apply single_flight_at_insert_quiet; cbn; auto.
  - destruct Hq as (<- & Hk). unfold single_flight; cbn.
    split; [|auto]. apply single_flight_at_insert_quiet; cbn; auto.
  - destruct Hq as (<- & Hk). unfold single_flight; cbn.
    split; [|auto]. apply single_flight_at_insert_quiet; cbn; auto.
  - destruct Hq as (Hc & Hk).
    destruct (IHc q n p (S n) Hc) as (Hinv1 & Hq1 & Hn1).
    { eapply single_flight_at_next; [exact Hinv|lia]. }
    { lia. }
    { eapply single_flight_at_fresh; exact Hinv. }
    set (sc1 := drive child n p (S n)) in *.
    destruct (IH n (store sc1) q h (pool sc1) (next sc1)) as (H1 & H2 & H3).
    { rewrite <- Hq1. apply Hk. }
    { rewrite <- Hq1. exact Hinv1. }
    { lia. }
    { exact Hne. }
    split; [exact H1|]. split; [exact H2|lia].
Qed.

Lemma drive_refreshing (A : Type) (st : Step A) :
  forall h p n,
    refreshing (Some h) st -> single_flight_at (Some h) p n -> h < n ->
    single_flight (drive st h p n) /\ n <= next (drive st h p n).
Proof.
  induction st as [A c s|A req s k IH|A s k IH|A h' s k IH|A child IHc k IH];
    intros h p n Hr Hinv Hlt; cbn in *.
  - unfold single_flight; cbn. rewrite Hr. split; [|auto].
    eapply single_flight_at_settle; cbn; eauto.
  - destruct Hr as (Hs & Hnr & Hk). unfold single_flight; cbn. rewrite Hs.
    split; [|auto]. apply single_flight_at_insert_refreshing; cbn; auto.
  - destruct Hr as (Hs & Hk). unfold single_flight; cbn. rewrite Hs.
    split; [|auto]. apply single_flight_at_insert_refreshing; cbn; auto.
  - destruct Hr as (Hs & Hk). unfold single_flight; cbn. rewrite Hs.
    split; [|auto]. apply single_flight_at_insert_refreshing; cbn; auto.
  - destruct Hr as (Hc & Hk).
    destruct (drive_quiet _ child (Some h) n p (S n) Hc) as (Hinv1 & Hq1 & Hn1).
    { eapply single_flight_at_next; [exact Hinv|lia]. }
    { lia. }
    { intros [= ->]. lia. }
    set (sc1 := drive child n p (S n)) in *.
    destruct (IH n (store sc1) h (pool sc1) (next sc1)) as (H1 & H2).
    { rewrite <- Hq1. apply Hk. }
    { rewrite <- Hq1. exact Hinv1. }
    { lia. }
    split; [exact H1|lia].
Qed.

(** The starter: the refresh is filed under a fresh promise, which the
    starter publishes as the handle before it suspends itself. *)
Lemma drive_starts_refresh (A : Type) (st : Step A) h p n :
  starts_refresh st -> single_flight_at None p n -> h < n ->
  single_flight (drive st h p n) /\ n <= next (drive st h p n).
Proof.
  intros Hst Hinv Hlt.
  assert (Hfiled : forall tr,
    refreshing_task tr -> single_flight_at (Some n) (<[n := tr]> p) (S n)).
  { intros tr Hr. destruct Hinv as [H1 H2]. split.
    - intros h' t' Hl. destruct (decide (h' = n)) as [->|Hd].
      + rewrite lookup_insert_eq in Hl. injection Hl as <-. auto.
      + rewrite lookup_insert_ne in Hl by congruence.
        destruct (H1 h' t' Hl) as [Hlt' [Hq'|[[=] _]]]. split; [lia|auto].
    - intros h' [= <-]. exists tr. rewrite lookup_insert_eq. auto. }
  destruct st as [| | | |child k]; try contradiction.
  destruct Hst as [Hchild Hk].
  destruct child as [|req s k'|s k'| |]; try contradiction;
    destruct Hchild as [Hs Hk']; cbn.
  - destruct (drive_quiet _ (k n s) (Some n) h
                (<[n := TFetch req k']> p) (S n)) as (H1 & _ & H3);
      [apply Hk|apply Hfiled; exact Hk'|lia|intros [= ->]; lia|].
    split; [exact H1|lia].
  - destruct (drive_quiet _ (k n s) (Some n) h
                (<[n := TYield k']> p) (S n)) as (H1 & _ & H3);
      [apply Hk|apply Hfiled; exact Hk'|lia|intros [= ->]; lia|].
    split; [exact H1|lia].
Qed.

Lemma quiet_bind (A B : Type) (st : Step A) (f : A -> Prog B) q :
  quiet q st -> (forall a s, quiet (refreshQueue s) (f a s)) ->
  quiet q (bind_step st f).
Proof.
  revert q.
  induction st as [A c s|A req s k IH|A s k IH|A h' s k IH|A child IHc k IH];
    intros q Hq Hf; cbn in *.
  - destruct c; cbn; [subst q; apply Hf|exact Hq].
  - destruct Hq as (? & ? & ?). auto.
  - destruct Hq as (? & ?). auto.
  - destruct Hq as (? & ?). auto.
  - destruct Hq as (? & ?). auto.
Qed.

Lemma quiet_await (A : Type) (st : Step A) q :
  quiet q st -> quiet q (await_step st).
Proof.
  revert q.
  induction st as [A c s|A req s k IH|A s k IH|A h' s k IH|A child IHc k IH];
    intros q Hq; cbn in *.
  - split; [exact Hq|]. intros s'. reflexivity.
  - destruct Hq as (? & ? & ?). auto.
  - destruct Hq as (? & ?). auto.
  - destruct Hq as (? & ?). auto.
  - destruct Hq as (? & ?). auto.
Qed.

Ltac not_refresh :=
  let t := fresh "t" in let H := fresh "H" in
  intros [t H]; discriminate H.

Ltac quiet_cases :=
  repeat (cbn; intros;
          try match goal with
              | |- _ /\ _ => split
              | |- ~ is_refresh_request _ => not_refresh
              | |- context [match ?x with _ => _ end] => destruct x eqn:?
              end);
  try reflexivity.

Lemma logout_quiet (s : Store) : quiet (refreshQueue s) (logout s).
Proof. unfold logout. quiet_cases. Qed.

Lemma login_quiet credentials (s : Store) :
  quiet (refreshQueue s) (login credentials s).
Proof. unfold login, parseUserFromToken. quiet_cases. Qed.

Lemma start_refresh_started (s : Store) :
  refresh_started (refreshQueue s) (start_refresh s).
Proof.
  pose proof logout_quiet as Hlogout.
  unfold start_refresh, refreshAccessToken, parseUserFromToken.
  cbn. destruct (truthy (refreshToken s)); cbn.
  - split; [reflexivity|]. intros r s'.
    destruct r as [b|status m|m]; cbn.
    + destruct (decode (body_accessToken b)); cbn.
      * split; [reflexivity|]. intros s''. cbn. reflexivity.
      * split; [reflexivity|]. intros s''. cbn.
        split; [apply Hlogout|]. intros h s3. cbn. reflexivity.
    + split; [reflexivity|]. intros s''. cbn.
      split; [apply Hlogout|]. intros h s3. cbn. reflexivity.
    + split; [reflexivity|]. intros s''. cbn.
      split; [apply Hlogout|]. intros h s3. cbn. reflexivity.
  - split; [reflexivity|]. intros s''. cbn.
    split; [apply Hlogout|]. intros h s3. cbn. reflexivity.
Qed.

Lemma dispatch_quiet url (fetchOptions : FetchOptions) hdrs (s : Store) :
  onResponseError fetchOptions = Some gateway_onResponseError ->
  is_Some (baseURL fetchOptions) ->
  quiet (refreshQueue s) (dispatch url fetchOptions hdrs s).
Proof.
  intros Hresp [base Hbase]. unfold dispatch. cbn. rewrite Hresp, Hbase.
  cbn. split; [reflexivity|]. split; [not_refresh|].
  intros [b|status m|m] s'; cbn; [reflexivity| |reflexivity].
  apply quiet_bind; [|intros; cbn; reflexivity].
  apply quiet_await. unfold gateway_onResponseError.
  destruct (status =? 401)%Z; cbn; [|reflexivity].
  apply quiet_bind; [|intros; cbn; reflexivity].
  apply quiet_await. apply logout_quiet.
Qed.

(** A gateway call either is quiet, or finds the token expired and no
    handle and starts the refresh. *)
Lemma perform_shape (c : Call) (s : Store) :
  plain (call_options c) ->
  quiet (refreshQueue s) (perform c s)
  \/ (refreshQueue s = None /\ starts_refresh (perform c s)).
Proof.
  intros [Hreq Hresp].
  assert (Hdispatch : forall hdrs s',
    quiet (refreshQueue s')
      (dispatch (call_url c)
         (request_options (call_method c) (call_data c) (call_options c) s)
         hdrs s')).
  { intros hdrs s'. apply dispatch_quiet; cbn; [by rewrite Hresp|eauto]. }
  unfold perform, request. cbn.
  destruct (isAuthenticated s); cbn; [|left; reflexivity].
  rewrite Hreq. cbn. unfold gateway_onRequest. cbn.
  destruct (isTokenExpired s); cbn.
  - destruct (refreshQueue s) as [pending|] eqn:Hq; cbn.
    + left. split; [exact Hq|]. intros outcome s'.
      apply quiet_bind; [|intros; apply Hdispatch].
      apply quiet_await. destruct outcome; cbn; reflexivity.
    + right. split; [reflexivity|]. split.
      * pose proof (start_refresh_started s) as Hst.
        rewrite Hq in Hst. exact Hst.
      * intros h s'. cbn. split; [reflexivity|]. intros outcome s''.
        apply quiet_bind; [|intros; apply Hdispatch].
        apply quiet_await. destruct outcome; cbn; reflexivity.
  - left. split; [reflexivity|]. intros s'. apply Hdispatch.
Qed.

Lemma step_single_flight (ev : Event) (sc : Sched) :
  plain_event ev -> single_flight sc ->
  single_flight (step ev sc) /\ next sc <= next (step ev sc).
Proof.
  intros Hplain Hinv.
  assert (Hnext : single_flight_at (refreshQueue (store sc)) (pool sc)
                    (S (next sc))).
  { eapply single_flight_at_next; [exact Hinv|lia]. }
  assert (Hstart : forall (A : Type) (m : Prog A),
    quiet (refreshQueue (store sc)) (m (store sc)) ->
    single_flight (start m sc) /\ next sc <= next (start m sc)).
  { intros A m Hq. unfold start.
    destruct (drive_quiet _ _ _ (next sc) _ _ Hq Hnext) as (H1 & _ & H3);
      [lia|eapply single_flight_at_fresh; exact Hinv|].
    split; [exact H1|].
    apply Nat.le_trans with (S (next sc)); [lia|exact H3]. }
  destruct ev as [c|credentials| |h r|t]; cbn [step].
  - destruct (perform_shape c (store sc) Hplain) as [Hq|[Hnone Hst]].
    + by apply Hstart.
    + unfold start. rewrite Hnone in Hnext.
      destruct (drive_starts_refresh _ _ (next sc) _ _ Hst Hnext) as [H1 H3];
        [lia|]. split; [exact H1|].
      apply Nat.le_trans with (S (next sc)); [lia|exact H3].
  - apply Hstart. apply login_quiet.
  - apply Hstart. apply logout_quiet.
  - unfold resume.
    assert (Hgo : forall (A : Type) (st : Step A) t,
      pool sc !! h = Some t ->
      (quiet_task t -> quiet (refreshQueue (store sc)) st) ->
      (refreshing_task t -> refreshing (refreshQueue (store sc)) st) ->
      single_flight (drive st h (pool sc) (next sc))
      /\ next sc <= next (drive st h (pool sc) (next sc))).
    { intros A st t Ht Hq Hr. destruct Hinv as [H1 H2].
      destruct (H1 h t Ht) as [Hlt Hcase].
      destruct (decide (refreshQueue (store sc) = Some h)) as [Heq|Hne].
      - destruct (H2 h Heq) as (t' & Ht' & Hr').
        rewrite Ht in Ht'. injection Ht' as <-.
        specialize (Hr Hr'). rewrite Heq in Hr.
        apply drive_refreshing; [exact Hr| |exact Hlt].
        rewrite <- Heq. split; assumption.
      - destruct Hcase as [Hq'|[Heq _]]; [|contradiction].
        destruct (drive_quiet _ st (refreshQueue (store sc)) h (pool sc)
                    (next sc)) as (G1 & _ & G3); auto.
        split; assumption. }
    destruct (pool sc !! h) as [[A req k|A k|A h' k|A c]|] eqn:Ht;
      try (split; [exact Hinv|lia]).
    + eapply Hgo; [reflexivity| |]; cbn; intros Hk; [apply Hk|apply Hk].
    + eapply Hgo; [reflexivity| |]; cbn; intros Hk; apply Hk.
    + destruct (pool sc !! h') as [[| | |B c]|] eqn:Ht';
        try (split; [exact Hinv|lia]).
      eapply Hgo; [reflexivity| |]; cbn; intros Hk; apply Hk.
  - cbn. split; [exact Hinv|lia].
Qed.

Lemma run_events_single_flight (evs : list Event) (sc : Sched) :
  Forall plain_event evs -> single_flight sc ->
  single_flight (run_events evs sc).
Proof.
  revert sc. induction evs as [|ev evs IH]; intros sc Hplain Hinv; cbn.
  - exact Hinv.
  - inversion Hplain; subst. apply IH; [assumption|].
    by apply step_single_flight.
Qed.

Lemma idle_single_flight (s : Store) :
  refreshQueue s = None -> single_flight (idle s).
Proof.
  intros Hq. unfold single_flight, idle; cbn. rewrite Hq. split.
  - intros h t Hl. rewrite lookup_empty in Hl. discriminate.
  - discriminate.
Qed.

(** What the invariant says about refresh calls and the handle. *)
Lemma single_flight_refresh_call_is_handle (sc : Sched) h t :
  single_flight sc -> pool sc !! h = Some t -> awaits_refresh_call t ->
  refreshQueue (store sc) = Some h.
Proof.
  intros [H1 _] Ht Hcall. destruct (H1 h t Ht) as [_ [Hq|[Heq _]]]; [|exact Heq].
  destruct t; try contradiction. destruct Hq as [Hnr _]. contradiction.
Qed.

Lemma single_flight_handle_unsettled (sc : Sched) h :
  single_flight sc -> refreshQueue (store sc) = Some h ->
  exists t, pool sc !! h = Some t /\ unsettled t.
Proof.
  intros [_ H2] Hq. destruct (H2 h Hq) as (t & Ht & Hr).
  exists t. split; [exact Ht|]. destruct t; cbn in *; auto.
Qed.

Lemma request_options_accessToken meth data options (s s' : Store) :
  accessToken s' = accessToken s ->
  request_options meth data options s' = request_options meth data options s.
Proof.
  intros H. unfold request_options, createFetchOptions. rewrite H.
  reflexivity.
Qed.

(** A caller that finds the token expired and a refresh in flight waits
    for the handle; nothing else changes. *)
Lemma waiting_caller (c : Call) (sc : Sched) h :
  refreshQueue (store sc) = Some h ->
  isAuthenticated (store sc) = true ->
  isTokenExpired (store sc) = true ->
  plain (call_options c) ->
  step (EvCall c) sc =
    {| store := store sc;
       pool := <[next sc :=
                   TAwait h (caller_resumes (call_url c)
                               (call_fetch_options c (store sc)))]> (pool sc);
       next := S (next sc) |}.
Proof.
  intros Hq Hauth Hexp [Hreq _]. cbn. unfold start, perform, request. cbn.
  rewrite Hauth. cbn. rewrite Hreq. cbn. unfold gateway_onRequest. cbn.
  rewrite Hexp. cbn. rewrite Hq. cbn. reflexivity.
Qed.

(** A caller that finds the token expired and no handle starts the
    refresh, publishes its promise as the handle and waits for it. *)
Lemma first_caller (c : Call) (sc : Sched) :
  refreshQueue (store sc) = None ->
  isAuthenticated (store sc) = true ->
  isTokenExpired (store sc) = true ->
  plain (call_options c) ->
  let h := S (next sc) in
  exists t,
    filed (start_refresh (store sc)) = Some t
    /\ step (EvCall c) sc =
       {| store := set_refreshQueue (Some h)
                     (left_by (start_refresh (store sc)) (store sc));
          pool := <[next sc :=
                      TAwait h (caller_resumes (call_url c)
                                  (call_fetch_options c (store sc)))]>
                    (<[h := t]> (pool sc));
          next := S h |}.
Proof.
  intros Hq Hauth Hexp [Hreq _]. cbn. unfold start, perform, request. cbn.
  rewrite Hauth. cbn. rewrite Hreq. cbn. unfold gateway_onRequest. cbn.
  rewrite Hexp. cbn. rewrite Hq. cbn.
  unfold start_refresh, refreshAccessToken. cbn.
  destruct (truthy (refreshToken (store sc))); cbn; eexists;
    (split; [reflexivity|reflexivity]).
Qed.

Lemma run_events_cons ev evs (sc : Sched) :
  run_events (ev :: evs) sc = run_events evs (step ev sc).
Proof. reflexivity. Qed.

Lemma run_events_app evs evs' (sc : Sched) :
  run_events (evs ++ evs') sc = run_events evs' (run_events evs sc).
Proof. apply foldl_app. Qed.

Lemma more_callers (calls : list Call) :
  forall (sc : Sched) h,
    refreshQueue (store sc) = Some h ->
    isAuthenticated (store sc) = true ->
    isTokenExpired (store sc) = true ->
    Forall (fun c => plain (call_options c)) calls ->
    let sc' := run_events (EvCall <$> calls) sc in
    store sc' = store sc
    /\ next sc' = next sc + length calls
    /\ (forall i c, calls !! i = Some c ->
          pool sc' !! (next sc + i) =
            Some (TAwait h (caller_resumes (call_url c)
                              (call_fetch_options c (store sc)))))
    /\ (forall x, x < next sc -> pool sc' !! x = pool sc !! x).
Proof.
  induction calls as [|c calls IH]; intros sc h Hq Hauth Hexp Hplain.
  - cbn. split; [reflexivity|]. split; [lia|]. split; [|reflexivity].
    intros i c Hl. rewrite lookup_nil in Hl. discriminate.
  - inversion Hplain as [|? ? Hc Hrest]; subst.
    rewrite fmap_cons, run_events_cons.
    rewrite (waiting_caller c sc h Hq Hauth Hexp Hc).
    match goal with |- context [run_events _ ?sc1] => set (sc1' := sc1) end.
    destruct (IH sc1' h Hq Hauth Hexp Hrest) as (Hs & Hn & Hw & Hold).
    cbv zeta.
    split; [exact Hs|]. split; [rewrite Hn; cbn; lia|]. split.
    + intros [|i] c' Hl; cbn in Hl.
      * injection Hl as <-. rewrite Hold by (cbn; lia).
        cbn. rewrite Nat.add_0_r. apply lookup_insert_eq.
      * replace (next sc + S i) with (next sc1' + i) by (cbn; lia).
        apply (Hw i c' Hl).
    + intros x Hx. rewrite Hold by (cbn; lia). cbn.
      apply lookup_insert_ne. lia.
Qed.

Lemma start_refresh_leaves (s : Store) :
  left_by (start_refresh s) s =
    if truthy (refreshToken s)
    then log_request (refresh_request (refreshToken s)) s
    else s.
Proof.
  unfold start_refresh, refreshAccessToken. cbn.
  destruct (truthy (refreshToken s)); reflexivity.
Qed.

(** [N >= 1] calls in a row on an expired token and no handle: the first
    starts the refresh under the promise after its own, and all of them
    wait for that promise. *)
Lemma concurrent_callers (c : Call) (calls : list Call) (sc : Sched) :
  refreshQueue (store sc) = None ->
  isAuthenticated (store sc) = true ->
  isTokenExpired (store sc) = true ->
  Forall (fun c => plain (call_options c)) (c :: calls) ->
  let sc' := run_events (EvCall <$> c :: calls) sc in
  let h := S (next sc) in
  store sc' =
    set_refreshQueue (Some h) (left_by (start_refresh (store sc)) (store sc))
  /\ next sc' = next sc + 2 + length calls
  /\ pool sc' !! h = filed (start_refresh (store sc))
  /\ (forall i c', (c :: calls) !! i = Some c' ->
        pool sc' !! caller (next sc) i =
          Some (TAwait h (caller_resumes (call_url c')
                            (call_fetch_options c' (store sc)))))
  /\ (forall x, x < next sc -> pool sc' !! x = pool sc !! x).
Proof.
  intros Hq Hauth Hexp Hplain.
  inversion Hplain as [|? ? Hc Hrest]; subst.
  destruct (first_caller c sc Hq Hauth Hexp Hc) as (t & Ht & Hstep).
  rewrite fmap_cons, run_events_cons. cbv zeta in Hstep. rewrite Hstep.
  match goal with |- context [run_events _ ?sc1] => set (sc1' := sc1) end.
  assert (Hacc : accessToken (store sc1') = accessToken (store sc)).
  { change (accessToken (left_by (start_refresh (store sc)) (store sc))
            = accessToken (store sc)).
    rewrite start_refresh_leaves.
    destruct (truthy (refreshToken (store sc))); reflexivity. }
  assert (Huser : user (store sc1') = user (store sc)).
  { change (user (left_by (start_refresh (store sc)) (store sc))
            = user (store sc)).
    rewrite start_refresh_leaves.
    destruct (truthy (refreshToken (store sc))); reflexivity. }
  assert (Hnow : now (store sc1') = now (store sc)).
  { change (now (left_by (start_refresh (store sc)) (store sc))
            = now (store sc)).
    rewrite start_refresh_leaves.
    destruct (truthy (refreshToken (store sc))); reflexivity. }
  destruct (more_callers calls sc1' (S (next sc))) as (Hs & Hn & Hw & Hold);
    [reflexivity| | |exact Hrest|].
  { unfold isAuthenticated. rewrite Hacc, Huser. exact Hauth. }
  { unfold isTokenExpired. rewrite Hacc, Hnow. exact Hexp. }
  cbv zeta. split; [exact Hs|]. split; [rewrite Hn; cbn; lia|].
  split; [|split].
  - rewrite Hold by (cbn; lia). cbn.
    rewrite lookup_insert_ne by lia. rewrite lookup_insert_eq.
    symmetry. exact Ht.
  - intros [|i] c' Hl; cbn in Hl.
    + injection Hl as <-. rewrite Hold by (cbn; lia). cbn.
      apply lookup_insert_eq.
    + replace (caller (next sc) (S i)) with (next sc1' + i)
        by (cbn; lia).
      rewrite (Hw i c' Hl). unfold call_fetch_options.
      rewrite (request_options_accessToken _ _ _ _ _ Hacc). reflexivity.
  - intros x Hx. rewrite Hold by (cbn; lia). cbn.
    rewrite !lookup_insert_ne by lia. reflexivity.
Qed.

(** A caller whose promise has fulfilled resumes, takes its microtask
    tick and dispatches its request, with the Authorization header of the
    access token of that moment. *)
Lemma caller_dispatches (sc : Sched) c h url fetchOptions (B : Type)
    (b : B) r1 r2 :
  pool sc !! c = Some (TAwait h (caller_resumes url fetchOptions)) ->
  pool sc !! h = Some (TDone (Normal b)) ->
  let req := dispatched_after url fetchOptions (accessToken (store sc)) in
  let sc' := run_events [EvResume c r1; EvResume c r2] sc in
  store sc' = log_request req (store sc)
  /\ (exists k : FetchResult -> Store -> Step Body,
        pool sc' !! c = Some (TFetch req k))
  /\ next sc' = next sc.
Proof.
  intros Hc Hh.
  assert (H1 : step (EvResume c r1) sc =
    {| store := store sc;
       pool := <[c := TYield (fun s' =>
                  bind_step
                    (Done (Normal (<["Authorization" :=
                                       bearer (accessToken (store sc))]>
                                     (headers fetchOptions))) s')
                    (dispatch url fetchOptions))]> (pool sc);
       next := next sc |}).
  { cbn. unfold resume. rewrite Hc, Hh. reflexivity. }
  cbv zeta. rewrite !run_events_cons, H1. cbn. unfold resume. cbn.
  rewrite lookup_insert_eq. cbn.
  split; [reflexivity|]. split; [|reflexivity].
  eexists. rewrite lookup_insert_eq. reflexivity.
Qed.

Lemma resume_fetch (sc : Sched) h r (A : Type) req (k : FetchResult -> Store -> Step A) :
  pool sc !! h = Some (TFetch req k) ->
  resume h r sc = drive (k r (store sc)) h (pool sc) (next sc).
Proof. intros H. unfold resume. rewrite H. reflexivity. Qed.
Lemma resume_yield (sc : Sched) h r (A : Type) (k : Store -> Step A) :
  pool sc !! h = Some (TYield k) ->
  resume h r sc = drive (k (store sc)) h (pool sc) (next sc).
Proof. intros H. unfold resume. rewrite H. reflexivity. Qed.
Lemma resume_done (sc : Sched) h r (A : Type) (c : Completion A) :
  pool sc !! h = Some (TDone c) ->
  resume h r sc = sc.
Proof. intros H. unfold resume. rewrite H. reflexivity. Qed.

Lemma logout_filed (s : Store) : exists t, filed (logout s) = Some t.
Proof. unfold logout. cbn. destruct (truthy (refreshToken s)); cbn; eauto. Qed.

Lemma drive_filed (A : Type) (st : Step A) t h p n s :
  filed st = Some t ->
  drive st h p n = {| store := left_by st s; pool := <[h := t]> p; next := n |}.
Proof. destruct st; cbn; intros [= <-]; reflexivity. Qed.

(** The refresh settles, in two resumptions (the answer of the network,
    then the microtask tick of [await]; a refresh without a refresh token
    only takes the tick): the handle is cleared and its promise is
    fulfilled, whether the refresh succeeded or failed; on failure
    [logout] has been called and the redirect issued. *)
Lemma refresh_settles (sc : Sched) h s0 r :
  pool sc !! h = filed (start_refresh s0) -> h < next sc ->
  let sc' := run_events [EvResume h r; EvResume h r] sc in
  refreshQueue (store sc') = None
  /\ pool sc' !! h = Some (TDone (Normal tt))
  /\ (forall x, x < next sc -> x <> h -> pool sc' !! x = pool sc !! x)
  /\ (refresh_succeeds s0 r ->
      next sc' = next sc /\ navlog (store sc') = navlog (store sc))
  /\ (~ refresh_succeeds s0 r ->
      exists s1 t,
        refresh_failed_on (store sc) r s1
        /\ filed (logout s1) = Some t
        /\ pool sc' !! next sc = Some t
        /\ next sc' = S (next sc)
        /\ store sc' =
           set_refreshQueue None
             (log_navigate "/signin" (left_by (logout s1) s1))).
Proof.
  intros Hpool Hlt.
  assert (Hfail : forall s1 (p : gmap nat Task),
    refresh_failed_on (store sc) r s1 ->
    (forall x, x <> h -> p !! x = pool sc !! x) ->
    let sc' := drive (Spawn (logout s1) (fun (_ : nat) s' =>
                 Done (Normal tt) (set_refreshQueue None (log_navigate "/signin" s'))))
                 h p (next sc) in
    refreshQueue (store sc') = None
    /\ pool sc' !! h = Some (TDone (Normal tt))
    /\ (forall x, x < next sc -> x <> h -> pool sc' !! x = pool sc !! x)
    /\ exists s1 t,
        refresh_failed_on (store sc) r s1
        /\ filed (logout s1) = Some t
        /\ pool sc' !! next sc = Some t
        /\ next sc' = S (next sc)
        /\ store sc' =
           set_refreshQueue None
             (log_navigate "/signin" (left_by (logout s1) s1))).
  { intros s1 p Hs1 Hp. destruct (logout_filed s1) as [t Ht].
    cbn -[logout]. rewrite (drive_filed _ _ t _ _ _ s1 Ht). cbn -[logout].
    split; [reflexivity|]. split; [apply lookup_insert_eq|]. split.
    - intros x Hx Hne. rewrite !lookup_insert_ne by lia. by apply Hp.
    - exists s1, t. split; [exact Hs1|]. split; [exact Ht|].
      split; [|auto]. rewrite lookup_insert_ne by lia. apply lookup_insert_eq. }
  assert (Hrefl : refresh_failed_on (store sc) r (store sc)).
  { unfold refresh_failed_on. auto 10. }
  unfold start_refresh, refreshAccessToken, parseUserFromToken in Hpool. cbn -[logout] in Hpool.
  cbv zeta. rewrite !run_events_cons. cbn [step run_events foldl].
  destruct (truthy (refreshToken s0)) eqn:Hrt; cbn -[logout] in Hpool.
  - rewrite (resume_fetch _ _ _ _ _ _ Hpool).
    destruct r as [b|status m|m]; cbn -[logout].
    + destruct (decode (body_accessToken b)) eqn:Hdec; cbn -[logout].
      * erewrite resume_yield by (cbn; apply lookup_insert_eq). cbn.
        split; [reflexivity|]. split; [apply lookup_insert_eq|]. split; [|split].
        -- intros x Hx Hne. rewrite !lookup_insert_ne by congruence. reflexivity.
        -- auto.
        -- intros Hn. exfalso. apply Hn. split; [exact Hrt|]. exists b. rewrite Hdec. eauto.
      * erewrite resume_yield by (cbn; apply lookup_insert_eq). cbn -[logout drive].
        edestruct Hfail as (H1 & H2 & H3 & H4); cycle 2.
        -- split; [exact H1|]. split; [exact H2|]. split; [exact H3|]. split; [|intros _; exact H4].
           intros (_ & b' & [= <-] & [x Hx]). congruence.
        -- unfold refresh_failed_on; cbn. eauto 10.
        -- intros x Hne. cbn. by rewrite lookup_insert_ne.
    + erewrite resume_yield by (cbn; apply lookup_insert_eq). cbn -[logout drive].
      edestruct Hfail as (H1 & H2 & H3 & H4); cycle 2.
      * split; [exact H1|]. split; [exact H2|]. split; [exact H3|]. split; [|intros _; exact H4].
        intros (_ & b' & [=] & _).
      * exact Hrefl.
      * intros x Hne. cbn. by rewrite lookup_insert_ne.
    + erewrite resume_yield by (cbn; apply lookup_insert_eq). cbn -[logout drive].
      edestruct Hfail as (H1 & H2 & H3 & H4); cycle 2.
      * split; [exact H1|]. split; [exact H2|]. split; [exact H3|]. split; [|intros _; exact H4].
        intros (_ & b' & [=] & _).
      * exact Hrefl.
      * intros x Hne. cbn. by rewrite lookup_insert_ne.
  - rewrite (resume_yield _ _ _ _ _ Hpool). cbn -[logout drive].
    destruct (logout_filed (store sc)) as [t Ht].
    edestruct (Hfail (store sc) (pool sc)) as (H1 & H2 & H3 & H4); [exact Hrefl|reflexivity|].
    assert (Hdone : pool (drive
                  (Spawn (logout (store sc))
                     (λ (_ : nat) (s' : Store),
                        Done (Normal ())
                          (set_refreshQueue None (log_navigate "/signin" s'))))
                  h (pool sc) (next sc)) !! h = Some (TDone (Normal tt))) by exact H2.
    rewrite (resume_done _ _ _ _ _ Hdone).
    split; [exact H1|]. split; [exact H2|]. split; [exact H3|]. split; [|intros _; exact H4].
    intros [Hx _]. congruence.
Qed.

Lemma logout_leaves (s : Store) :
  left_by (logout s) s =
    if truthy (refreshToken s)
    then log_request (post "/api/auth/logout" (PRefreshToken (refreshToken s)))
           (set_loading true s)
    else set_loading false
           (set_user None
              (set_refreshToken None
                 (set_accessToken None (set_loading true s)))).
Proof. unfold logout. cbn. destruct (truthy (refreshToken s)); reflexivity. Qed.

Lemma single_flight_one_refresh (sc : Sched) :
  single_flight sc -> one_refresh_at_a_time sc.
Proof.
  intros Hinv. split; [|split].
  - intros h1 h2 t1 t2 Ht1 Hc1 Ht2 Hc2.
    pose proof (single_flight_refresh_call_is_handle sc h1 t1 Hinv Ht1 Hc1).
    pose proof (single_flight_refresh_call_is_handle sc h2 t2 Hinv Ht2 Hc2).
    congruence.
  - intros h t. by apply single_flight_refresh_call_is_handle.
  - intros h. by apply single_flight_handle_unsettled.
Qed.

Lemma caller_bounds (first i n : nat) :
  i < S n ->
  caller first i < first + 2 + n /\ caller first i <> S first.
Proof. destruct i; cbn; lia. Qed.

(** The handle among gateway calls that evaluate the computed at the
    read.  Along every schedule of such calls (made with the gateway's
    own interceptors), logins, logouts, resumptions and clock changes,
    from a start with no handle: at every instant at most one refresh
    call is outstanding, it belongs to the task the handle
    [refreshQueue] names, and the promise the handle names has not
    settled (so the handle is gone once the refresh has settled).  When,
    the handle being clear, [N >= 1] calls
    are made on an expired token, the first starts the one refresh and
    publishes its promise as the handle before the refresh has settled,
    exactly the refresh request (if there is a refresh token to send) is
    issued, and each of the [N] calls waits for that same promise.
    Whatever the refresh is answered, when it settles the handle is
    cleared and the promise fulfilled, the [N] callers still wait for it,
    and each of them, resumed then, dispatches its request with the
    Authorization header of the access token the refresh has left. *)
Theorem single_flight_refresh (s : Store) (evs : list Event) :
  refreshQueue s = None ->
  Forall plain_event evs ->
  let sc := run_events evs (idle s) in
  one_refresh_at_a_time sc
  /\ forall (c : Call) (calls : list Call),
       refreshQueue (store sc) = None ->
       isAuthenticated (store sc) = true ->
       isTokenExpired (store sc) = true ->
       Forall (fun c => plain (call_options c)) (c :: calls) ->
       let sc' := run_events (EvCall <$> c :: calls) sc in
       let h := S (next sc) in
       one_refresh_at_a_time sc'
       /\ refreshQueue (store sc') = Some h
       /\ pool sc' !! h = filed (start_refresh (store sc))
       /\ netlog (store sc') = refresh_calls (store sc) ++ netlog (store sc)
       /\ (forall i, i < length (c :: calls) ->
             waits_for sc' (caller (next sc) i) h)
       /\ forall r,
            let sc'' := run_events [EvResume h r; EvResume h r] sc' in
            one_refresh_at_a_time sc''
            /\ refreshQueue (store sc'') = None
            /\ pool sc'' !! h = Some (TDone (Normal tt))
            /\ (forall i, i < length (c :: calls) ->
                  waits_for sc'' (caller (next sc) i) h)
            /\ forall i c' r1 r2,
                 (c :: calls) !! i = Some c' ->
                 in_flight
                   (run_events [EvResume (caller (next sc) i) r1;
                                EvResume (caller (next sc) i) r2] sc'')
                   (caller (next sc) i)
                   (dispatched_after (call_url c')
                      (call_fetch_options c' (store sc))
                      (accessToken (store sc''))).
Proof.
  intros Hq Hplain sc.
  assert (Hinv : single_flight sc).
  { apply run_events_single_flight; [exact Hplain|].
    by apply idle_single_flight. }
  split; [by apply single_flight_one_refresh|].
  intros c calls Hq' Hauth Hexp Hcalls sc' h.
  assert (Hplain' : Forall plain_event (EvCall <$> c :: calls)).
  { apply Forall_fmap. eapply Forall_impl; [exact Hcalls|]. auto. }
  assert (Hinv' : single_flight sc').
  { by apply run_events_single_flight. }
  destruct (concurrent_callers c calls sc Hq' Hauth Hexp Hcalls)
    as (Hstore & Hnext & Hh & Hwait & Hold).
  fold sc' in Hstore, Hnext, Hh, Hwait, Hold. fold h in Hstore, Hh, Hwait.
  assert (Hwaits : forall sc0 : Sched,
    (forall x, x < next sc' -> x <> h -> pool sc0 !! x = pool sc' !! x) ->
    forall i, i < length (c :: calls) -> waits_for sc0 (caller (next sc) i) h).
  { intros sc0 Hsame i Hi.
    destruct (lookup_lt_is_Some_2 (c :: calls) i Hi) as [c' Hc'].
    destruct (caller_bounds (next sc) i (length calls) Hi) as [Hb1 Hb2].
    unfold waits_for. rewrite Hsame by (rewrite ?Hnext; auto).
    rewrite (Hwait i c' Hc'). reflexivity. }
  split; [by apply single_flight_one_refresh|].
  split; [rewrite Hstore; reflexivity|].
  split; [exact Hh|].
  split.
  { rewrite Hstore.
    change (netlog (left_by (start_refresh (store sc)) (store sc))
            = refresh_calls (store sc) ++ netlog (store sc)).
    rewrite start_refresh_leaves. unfold refresh_calls.
    destruct (truthy (refreshToken (store sc))); reflexivity. }
  split; [apply Hwaits; auto|].
  intros r sc''.
  destruct (refresh_settles sc' h (store sc) r Hh) as (Hc1 & Hc2 & Hc3 & _).
  { rewrite Hnext. unfold h. lia. }
  fold sc'' in Hc1, Hc2, Hc3.
  split.
  { apply single_flight_one_refresh.
    apply (run_events_single_flight [EvResume h r; EvResume h r] sc');
      [repeat constructor|exact Hinv']. }
  split; [exact Hc1|]. split; [exact Hc2|].
  split; [apply Hwaits; exact Hc3|].
  intros i c' r1 r2 Hc'.
  assert (Hi : i < length (c :: calls)) by (eapply lookup_lt_Some; eauto).
  destruct (caller_bounds (next sc) i (length calls) Hi) as [Hb1 Hb2].
  destruct (caller_dispatches sc'' (caller (next sc) i) h (call_url c')
              (call_fetch_options c' (store sc)) unit tt r1 r2)
    as (_ & [k Hk] & _).
  { rewrite Hc3 by (rewrite ?Hnext; auto). apply (Hwait i c' Hc'). }
  { exact Hc2. }
  unfold in_flight. rewrite Hk. reflexivity.
Qed.

(** ** A refresh that fails *)

(** What a failed refresh leaves.  When the refresh that [N >= 1] gateway
    calls wait for fails (no refresh token, a rejection, a network error, an
    access token that does not decode), the failure is absorbed by the
    refresh itself: it redirects to [/signin], calls [logout] without
    waiting for it, clears the handle, and its promise is fulfilled, not
    rejected.  Nothing is propagated to the callers: each of them, resumed
    then, takes up its request and dispatches it, with the Authorization
    header of the access token of that moment, which is the expired one
    when the endpoint rejected the refresh or could not be reached. *)
Theorem refresh_failure_is_absorbed (sc : Sched) (c : Call)
    (calls : list Call) (r : FetchResult) :
  refreshQueue (store sc) = None ->
  isAuthenticated (store sc) = true ->
  isTokenExpired (store sc) = true ->
  Forall (fun c => plain (call_options c)) (c :: calls) ->
  ~ refresh_succeeds (store sc) r ->
  let sc' := run_events (EvCall <$> c :: calls) sc in
  let h := S (next sc) in
  let sc'' := run_events [EvResume h r; EvResume h r] sc' in
  pool sc'' !! h = Some (TDone (Normal tt))
  /\ refreshQueue (store sc'') = None
  /\ navlog (store sc'') = "/signin" :: navlog (store sc)
  /\ (exists s1 t,
        refresh_failed_on (store sc') r s1
        /\ filed (logout s1) = Some t
        /\ pool sc'' !! next sc' = Some t)
  /\ ((forall b, r <> FetchOk b) ->
      truthy (refreshToken (store sc)) = true ->
      accessToken (store sc'') = accessToken (store sc))
  /\ forall i c' r1 r2,
       (c :: calls) !! i = Some c' ->
       let sc3 := run_events [EvResume (caller (next sc) i) r1;
                              EvResume (caller (next sc) i) r2] sc'' in
       let req := dispatched_after (call_url c')
                    (call_fetch_options c' (store sc))
                    (accessToken (store sc'')) in
       in_flight sc3 (caller (next sc) i) req
       /\ netlog (store sc3) = req :: netlog (store sc'')
       /\ ~ abandoned sc3 (caller (next sc) i) (call_url c').
Proof.
  intros Hq Hauth Hexp Hcalls Hfail sc' h sc''.
  destruct (concurrent_callers c calls sc Hq Hauth Hexp Hcalls)
    as (Hstore & Hnext & Hh & Hwait & Hold).
  fold sc' in Hstore, Hnext, Hh, Hwait, Hold. fold h in Hstore, Hh, Hwait.
  destruct (refresh_settles sc' h (store sc) r Hh)
    as (Hc1 & Hc2 & Hc3 & _ & Hc5).
  { rewrite Hnext. unfold h. lia. }
  fold sc'' in Hc1, Hc2, Hc3, Hc5.
  destruct (Hc5 Hfail) as (s1 & t & Hs1 & Ht & Hpool & Hn'' & Hstore'').
  assert (Hleft : forall f : Store -> list string,
    f = navlog -> f (store sc') = f (store sc)).
  { intros f ->. rewrite Hstore.
    change (navlog (left_by (start_refresh (store sc)) (store sc))
            = navlog (store sc)).
    rewrite start_refresh_leaves.
    destruct (truthy (refreshToken (store sc))); reflexivity. }
  split; [exact Hc2|]. split; [exact Hc1|]. split; [|split; [|split]].
  - rewrite Hstore''.
    change ("/signin" :: navlog (left_by (logout s1) s1)
            = "/signin" :: navlog (store sc)).
    f_equal. rewrite logout_leaves.
    destruct Hs1 as (_ & _ & _ & Hnav & _).
    rewrite <- (Hleft navlog eq_refl), <- Hnav.
    destruct (truthy (refreshToken s1)); reflexivity.
  - exists s1, t. auto.
  - intros Hr Hrt. rewrite Hstore''.
    change (accessToken (left_by (logout s1) s1) = accessToken (store sc)).
    rewrite logout_leaves.
    destruct Hs1 as (Hrt1 & _ & _ & _ & _ & [Hacc|(b & Hb & _)]);
      [|destruct (Hr b Hb)].
    assert (Hrt' : refreshToken (store sc') = refreshToken (store sc)).
    { rewrite Hstore.
      change (refreshToken (left_by (start_refresh (store sc)) (store sc))
              = refreshToken (store sc)).
      rewrite start_refresh_leaves.
      destruct (truthy (refreshToken (store sc))); reflexivity. }
    assert (Hacc' : accessToken (store sc') = accessToken (store sc)).
    { rewrite Hstore.
      change (accessToken (left_by (start_refresh (store sc)) (store sc))
              = accessToken (store sc)).
      rewrite start_refresh_leaves.
      destruct (truthy (refreshToken (store sc))); reflexivity. }
    rewrite Hrt1, Hrt', Hrt. cbn. congruence.
  - intros i c' r1 r2 Hc' sc3 req.
    assert (Hi : i < length (c :: calls)) by (eapply lookup_lt_Some; eauto).
    destruct (caller_bounds (next sc) i (length calls) Hi) as [Hb1 Hb2].
    destruct (caller_dispatches sc'' (caller (next sc) i) h (call_url c')
                (call_fetch_options c' (store sc)) unit tt r1 r2)
      as (Hs3 & [k Hk] & _).
    { rewrite Hc3 by (rewrite ?Hnext; auto). apply (Hwait i c' Hc'). }
    { exact Hc2. }
    fold sc3 in Hs3, Hk. fold req in Hs3, Hk.
    split; [unfold in_flight; rewrite Hk; reflexivity|].
    split; [rewrite Hs3; reflexivity|].
    intros [(A & e & Hdone) _]. rewrite Hk in Hdone. discriminate.
Qed.

(** * Further properties of the code *)

(** ** [useAuth]: login *)

Lemma hasRole_elem_of role (s : Store) u :
  user s = Some u -> (hasRole role s = true <-> role ∈ u_roles u).
Proof.
  intros Hu. unfold hasRole. rewrite Hu. rewrite existsb_exists.
  rewrite list_elem_of_In. split.
  - intros (x & Hin & Heq). apply String.eqb_eq in Heq. by subst.
  - intros Hin. exists role. split; [exact Hin|apply String.eqb_refl].
Qed.

(** X1. A login the endpoint answers with tokens whose access token
    decodes (and is not the empty string) stores both tokens and the
    decoded user, whatever session was there before: the session is
    authenticated, [hasRole] holds of exactly the roles of the token (none
    when the token has no [roles] claim), the loading flag is down, and
    the one request made is the login request. *)
Theorem login_success (s : Store) credentials net t payload :
  net (login_request credentials) = FetchOk (BodyTokens t) ->
  at_accessToken t <> "" ->
  jwtDecode (at_accessToken t) = Some payload ->
  exists s',
    run net (login credentials s) = Some (Normal tt, s')
    /\ accessToken s' = Some (at_accessToken t)
    /\ refreshToken s' = Some (at_refreshToken t)
    /\ user s' = Some (user_of payload)
    /\ loading s' = false
    /\ isAuthenticated s' = true
    /\ (forall role,
          hasRole role s' = true <-> role ∈ default [] (roles payload))
    /\ netlog s' = login_request credentials :: netlog s.
Proof.
  intros Hnet Hne Hdec. unfold login, parseUserFromToken. cbn.
  unfold login_request in Hnet. rewrite Hnet. cbn. rewrite Hdec. cbn.
  eexists. split; [reflexivity|].
  do 4 (split; [reflexivity|]). split; [|split; [|reflexivity]].
  - unfold isAuthenticated. cbn.
    destruct (at_accessToken t); [congruence|reflexivity].
  - intros role.
    match goal with
    | |- hasRole _ ?s' = true <-> _ =>
        exact (hasRole_elem_of role s' (user_of payload) eq_refl)
    end.
Qed.

(** X2. A login the endpoint rejects, or that does not reach it, throws
    [INVALID_CREDENTIALS] with the message of the failure, or with
    "Invalid credentials" when that message is empty; tokens and user are
    as before and the loading flag is down. *)
Theorem login_rejected (s : Store) credentials net :
  (forall b, net (login_request credentials) <> FetchOk b) ->
  exists s',
    run net (login credentials s) =
      Some (Thrown (AuthError INVALID_CREDENTIALS
                      (or_else (failure_message
                                  (net (login_request credentials)))
                         "Invalid credentials")), s')
    /\ accessToken s' = accessToken s
    /\ refreshToken s' = refreshToken s
    /\ user s' = user s
    /\ loading s' = false.
Proof.
  intros Hnet. unfold login. cbn. unfold login_request in *.
  destruct (net _) as [b|status m|m] eqn:E; cbn.
  - destruct (Hnet b eq_refl).
  - eexists. split; [reflexivity|]. cbn. auto.
  - eexists. split; [reflexivity|]. cbn. auto.
Qed.

(** ** [useAuth]: refresh *)

(** X3. A refresh the endpoint answers with an access token that decodes
    returns that token, stores it and the user decoded from it, and
    leaves the refresh token as it was: the refresh token of the answer
    is not read.  The one request made carries the refresh token of the
    session. *)
Theorem refreshAccessToken_success (s : Store) net b payload :
  truthy (refreshToken s) = true ->
  net (refresh_request (refreshToken s)) = FetchOk b ->
  decode (body_accessToken b) = Some payload ->
  exists s',
    run net (refreshAccessToken s) = Some (Normal (body_accessToken b), s')
    /\ accessToken s' = body_accessToken b
    /\ user s' = Some (user_of payload)
    /\ refreshToken s' = refreshToken s
    /\ loading s' = loading s
    /\ netlog s' = refresh_request (refreshToken s) :: netlog s.
Proof.
  intros Hrt Hnet Hdec. unfold refreshAccessToken, parseUserFromToken.
  cbn. rewrite Hrt. cbn. unfold refresh_request in Hnet. rewrite Hnet.
  cbn. rewrite Hdec. cbn. eexists. split; [reflexivity|]. cbn. auto 6.
Qed.

(** X4. A refresh the endpoint rejects, or that does not reach it, throws
    [REFRESH_FAILED] with the message of the failure, or with "Failed to
    refresh token" when that message is empty, and has changed nothing
    but the request log. *)
Theorem refreshAccessToken_rejected_message (s : Store) net :
  truthy (refreshToken s) = true ->
  (forall b, net (refresh_request (refreshToken s)) <> FetchOk b) ->
  run net (refreshAccessToken s) =
    Some (Thrown (AuthError REFRESH_FAILED
                    (or_else (failure_message
                                (net (refresh_request (refreshToken s))))
                       "Failed to refresh token")),
          log_request (refresh_request (refreshToken s)) s).
Proof.
  intros Hrt Hnet. unfold refreshAccessToken. cbn. rewrite Hrt. cbn.
  unfold refresh_request in *.
  destruct (net _) as [b|status m|m] eqn:E; cbn.
  - destruct (Hnet b eq_refl).
  - reflexivity.
  - reflexivity.
Qed.

(** ** [useAuth]: the expiry check over time *)

(** X5. Expiry is monotone in time: a session whose token has expired
    stays expired as the clock advances, as long as the token is not
    replaced. *)
Theorem isTokenExpired_monotone (s : Store) (t : Z) :
  (now s <= t)%Z ->
  isTokenExpired s = true ->
  isTokenExpired (set_now t s) = true.
Proof.
  unfold isTokenExpired. cbn. intros Hle.
  destruct (truthy (accessToken s)); cbn; [|reflexivity].
  destruct (decode (accessToken s)) as [payload|]; [|reflexivity].
  rewrite !Z.leb_le. lia.
Qed.

(** ** [useAuth]: initialize *)

Lemma isTokenExpired_set_loading v (s : Store) :
  isTokenExpired (set_loading v s) = isTokenExpired s.
Proof. reflexivity. Qed.

(** X6. [initialize] absorbs every failure: it settles normally whatever
    the network answers and whatever happens while it is suspended; in a
    run on its own it lowers the loading flag, never redirects, and the
    only request it can make is the refresh request (it never calls the
    logout endpoint). *)
Theorem initialize_never_fails (s : Store) :
  settles (fun c _ => c = Normal tt) (initialize s)
  /\ forall net, exists s',
       run net (initialize s) = Some (Normal tt, s')
       /\ loading s' = false
       /\ navlog s' = navlog s
       /\ (netlog s' = netlog s
           \/ netlog s' = refresh_request (refreshToken s) :: netlog s).
Proof.
  unfold initialize, refreshAccessToken, parseUserFromToken, refresh_request.
  split.
  - step_cases; reflexivity.
  - intros net. cbn.
    destruct (truthy (accessToken s)); cbn; [|eauto 6].
    rewrite isTokenExpired_set_loading.
    destruct (isTokenExpired s); cbn.
    + destruct (truthy (refreshToken s)); cbn; [|eauto 6].
      destruct (net _) as [b|status m|m]; cbn; [|eauto 6|eauto 6].
      destruct (decode (body_accessToken b)); cbn; eauto 6.
    + destruct (decode (accessToken s)); cbn; eauto 6.
Qed.

(** X7. Without an access token (none, or the empty string) [initialize]
    does nothing, also when a refresh token is there: no request is made
    and the session is as before, with the loading flag down. *)
Theorem initialize_without_access_token (s : Store) net :
  truthy (accessToken s) = false ->
  run net (initialize s) =
    Some (Normal tt, set_loading false (set_loading true s)).
Proof. intros H. unfold initialize. cbn. rewrite H. reflexivity. Qed.

(** X8. On an access token that has not expired [initialize] makes no
    request: the token decodes, the user is set from it, and the tokens
    are as before. *)
Theorem initialize_unexpired (s : Store) net :
  truthy (accessToken s) = true ->
  isTokenExpired s = false ->
  exists payload,
    decode (accessToken s) = Some payload
    /\ run net (initialize s) =
         Some (Normal tt,
               set_loading false
                 (set_user (Some (user_of payload)) (set_loading true s))).
Proof.
  intros Hat Hexp. unfold initialize, parseUserFromToken. cbn.
  rewrite Hat. cbn. rewrite isTokenExpired_set_loading, Hexp. cbn.
  unfold isTokenExpired in Hexp.
  rewrite Hat in Hexp. cbn in Hexp.
  destruct (decode (accessToken s)) as [payload|]; [|discriminate].
  exists payload. split; reflexivity.
Qed.

(** X9. On an expired access token [initialize] refreshes.  When the
    refresh succeeds the session holds the new access token, the user
    decoded from it and the refresh token of before; when it fails (no
    refresh token, a rejection, a network error, an access token that
    does not decode) the access token, the refresh token and the user are
    cleared.  Either way [initialize] settles normally, without a
    redirect. *)
Theorem initialize_expired (s : Store) net :
  truthy (accessToken s) = true ->
  isTokenExpired s = true ->
  exists s',
    run net (initialize s) = Some (Normal tt, s')
    /\ loading s' = false
    /\ navlog s' = navlog s
    /\ (refresh_succeeds s (net (refresh_request (refreshToken s))) ->
        exists b payload,
          net (refresh_request (refreshToken s)) = FetchOk b
          /\ decode (body_accessToken b) = Some payload
          /\ accessToken s' = body_accessToken b
          /\ user s' = Some (user_of payload)
          /\ refreshToken s' = refreshToken s)
    /\ (~ refresh_succeeds s (net (refresh_request (refreshToken s))) ->
        cleared s').
Proof.
  intros Hat Hexp.
  unfold initialize, refreshAccessToken, parseUserFromToken, refresh_succeeds,
    refresh_request, cleared.
  cbn. rewrite Hat. cbn. rewrite isTokenExpired_set_loading, Hexp. cbn.
  destruct (truthy (refreshToken s)) eqn:Hrt; cbn.
  - destruct (net _) as [b|status m|m] eqn:Hnet; cbn.
    + destruct (decode (body_accessToken b)) as [payload|] eqn:Hdec; cbn.
      * eexists. split; [reflexivity|]. cbn.
        split; [reflexivity|]. split; [reflexivity|]. split.
        -- intros _. exists b, payload. auto.
        -- intros Hn. destruct Hn. split; [reflexivity|].
           exists b. rewrite Hdec. eauto.
      * eexists. split; [reflexivity|]. cbn.
        split; [reflexivity|]. split; [reflexivity|]. split; [|auto].
        intros (_ & b' & [= <-] & [x Hx]). congruence.
    + eexists. split; [reflexivity|]. cbn.
      split; [reflexivity|]. split; [reflexivity|]. split; [|auto].
      intros (_ & b' & [=] & _).
    + eexists. split; [reflexivity|]. cbn.
      split; [reflexivity|]. split; [reflexivity|]. split; [|auto].
      intros (_ & b' & [=] & _).
  - eexists. split; [reflexivity|]. cbn.
    split; [reflexivity|]. split; [reflexivity|]. split; [|auto].
    intros [Hx _]. discriminate.
Qed.

(** ** [useAuth]: logout *)

(** X10. [logout] calls the logout endpoint exactly when there is a
    refresh token, with that token as the body, and writes one line to
    the console exactly when that call fails. *)
Theorem logout_network_call (s : Store) net :
  exists s',
    run net (logout s) = Some (Normal tt, s')
    /\ netlog s' =
         (if truthy (refreshToken s)
          then [logout_request (refreshToken s)] else [])
         ++ netlog s
    /\ console s' =
         (if truthy (refreshToken s)
          then match net (logout_request (refreshToken s)) with
               | FetchOk _ => []
               | r => ["Logout error: " +:+ failure_message r]
               end
          else [])
         ++ console s
    /\ navlog s' = navlog s.
Proof.
  unfold logout, logout_request. cbn.
  destruct (truthy (refreshToken s)); cbn; [|eauto].
  destruct (net _) as [b|status m|m]; cbn; eauto.
Qed.

(** X11. After [logout] the session is signed out for every user of it:
    [isAuthenticated] is false, [hasRole] is false of every role, the
    token counts as expired, a second [logout] makes no request, and
    every gateway call throws [UNAUTHORIZED] without a request. *)
Theorem after_logout (s : Store) net :
  exists s',
    run net (logout s) = Some (Normal tt, s')
    /\ isAuthenticated s' = false
    /\ isTokenExpired s' = true
    /\ (forall role, hasRole role s' = false)
    /\ (exists s'',
          run net (logout s') = Some (Normal tt, s'')
          /\ netlog s'' = netlog s' /\ cleared s'')
    /\ forall meth url data options,
         request meth url data options s' =
           Done (Thrown (AuthError UNAUTHORIZED "Authentication required"))
             s'.
Proof.
  unfold logout, request, isAuthenticated, isTokenExpired, hasRole, cleared.
  cbn. destruct (truthy (refreshToken s)); cbn.
  - destruct (net _) as [b|status m|m]; cbn;
      (eexists; split; [reflexivity|]; cbn; eauto 10).
  - eexists; split; [reflexivity|]; cbn; eauto 10.
Qed.

(** ** [useAuthApi]: a call on a token that has not expired *)

Lemma request_unexpired (s : Store) meth url data options :
  plain options ->
  isAuthenticated s = true ->
  isTokenExpired s = false ->
  request meth url data options s =
    Yield s (fun s' =>
      dispatch url (request_options meth data options s)
        (headers (createFetchOptions options s)) s').
Proof.
  intros [Hreq _] Hauth Hexp. unfold request. cbn. rewrite Hauth. cbn.
  rewrite Hreq. cbn. unfold gateway_onRequest. cbn. rewrite Hexp.
  reflexivity.
Qed.

Lemma createFetchOptions_default_headers options (s : Store) :
  opt_headers options = None ->
  headers (createFetchOptions options s) =
    <["Authorization" := bearer (accessToken s)]>
      (<["Content-Type" := "application/json"]> ∅).
Proof.
  intros H. unfold createFetchOptions, spread. cbn. rewrite H. cbn.
  apply (left_id_L ∅ (∪)).
Qed.

Lemma run_dispatch_ok net (s : Store) url fetchOptions hdrs b :
  let req :=
    {| req_url := url; req_method := default GET (method fetchOptions);
       req_baseURL := baseURL fetchOptions; req_headers := hdrs;
       req_body := body fetchOptions |} in
  net req = FetchOk b ->
  run net (Yield s (fun s' => dispatch url fetchOptions hdrs s')) =
    Some (Normal b, log_request req s).
Proof. intros req H. subst req. cbn. rewrite H. reflexivity. Qed.

(** X12. A gateway call made without own headers on a token that has not
    expired dispatches one request: to the URL, with the method of the
    call, the configured base URL unless the options carry one, the data
    as body, and exactly the headers [Authorization: Bearer <access
    token>] and [Content-Type: application/json].  When the answer is a
    body the call returns it, and the session is untouched: no refresh,
    no redirect. *)
Theorem gateway_call_succeeds (s : Store) meth url data options net b :
  plain options ->
  opt_headers options = None ->
  isAuthenticated s = true ->
  isTokenExpired s = false ->
  let req :=
    {| req_url := url; req_method := meth;
       req_baseURL := Some (default apiBase (opt_baseURL options));
       req_headers :=
         <["Authorization" := bearer (accessToken s)]>
           (<["Content-Type" := "application/json"]> ∅);
       req_body := PData <$> data |} in
  net req = FetchOk b ->
  run net (request meth url data options s) =
    Some (Normal b, log_request req s).
Proof.
  intros Hplain Hh Hauth Hexp req Hnet.
  rewrite (request_unexpired s meth url data options Hplain Hauth Hexp).
  rewrite (createFetchOptions_default_headers options s Hh).
  apply run_dispatch_ok. exact Hnet.
Qed.

(** X13. Headers passed by the caller replace the headers of the gateway
    as a whole, because the options are spread after [headers]: on a
    token that has not expired the request is dispatched with exactly the
    caller's headers, so without an Authorization header unless the
    caller has put one there. *)
Theorem caller_headers_replace_gateway_headers (s : Store) meth url data
    options net b (hdrs : Headers) :
  plain options ->
  opt_headers options = Some hdrs ->
  isAuthenticated s = true ->
  isTokenExpired s = false ->
  let req :=
    {| req_url := url; req_method := meth;
       req_baseURL := Some (default apiBase (opt_baseURL options));
       req_headers := hdrs;
       req_body := PData <$> data |} in
  net req = FetchOk b ->
  run net (request meth url data options s) =
    Some (Normal b, log_request req s).
Proof.
  intros Hplain Hh Hauth Hexp req Hnet.
  rewrite (request_unexpired s meth url data options Hplain Hauth Hexp).
  assert (Hhdrs : headers (createFetchOptions options s) = hdrs).
  { cbn. rewrite Hh. reflexivity. }
  rewrite Hhdrs. apply run_dispatch_ok. exact Hnet.
Qed.


Lemma run_dispatch_failure net (s : Store) url fetchOptions hdrs :
  onResponseError fetchOptions = Some gateway_onResponseError ->
  let req :=
    {| req_url := url; req_method := default GET (method fetchOptions);
       req_baseURL := baseURL fetchOptions; req_headers := hdrs;
       req_body := body fetchOptions |} in
  (forall status m,
     net req = FetchHttpError status m -> status <> 401%Z ->
     run net (Yield s (fun s' => dispatch url fetchOptions hdrs s')) =
       Some (Thrown (FetchError (Some status) m), log_request req s))
  /\ (forall m,
        net req = FetchNetworkError m ->
        run net (Yield s (fun s' => dispatch url fetchOptions hdrs s')) =
          Some (Thrown (FetchError None m), log_request req s)).
Proof.
  intros Hresp req. subst req. split.
  - intros status m Hnet Hne. cbn. rewrite Hnet. cbn. rewrite Hresp. cbn.
    unfold gateway_onResponseError.
    destruct (status =? 401)%Z eqn:E; [apply Z.eqb_eq in E; contradiction|].
    reflexivity.
  - intros m Hnet. cbn. rewrite Hnet. reflexivity.
Qed.

Lemma request_options_onResponseError meth data options (s : Store) :
  plain options ->
  onResponseError (request_options meth data options s) =
    Some gateway_onResponseError.
Proof. intros [_ H]. cbn. rewrite H. reflexivity. Qed.


(** X15. Any other failure of a gateway call reaches the caller and
    nothing else happens: an answer with an error status other than 401
    and a network error make the call throw the error, without logout
    and without redirect, and the session is untouched. *)
Theorem other_failures_only_propagate (s : Store) meth url data options
    net :
  plain options ->
  isAuthenticated s = true ->
  isTokenExpired s = false ->
  let req := dispatched meth url data options s in
  (forall status m,
     net req = FetchHttpError status m -> status <> 401%Z ->
     run net (request meth url data options s) =
       Some (Thrown (FetchError (Some status) m), log_request req s))
  /\ (forall m,
        net req = FetchNetworkError m ->
        run net (request meth url data options s) =
          Some (Thrown (FetchError None m), log_request req s)).
Proof.
  intros Hplain Hauth Hexp req.
  rewrite (request_unexpired s meth url data options Hplain Hauth Hexp).
  exact (run_dispatch_failure net s url
           (request_options meth data options s)
           (headers (createFetchOptions options s))
           (request_options_onResponseError meth data options s Hplain)).
Qed.

(** ** [useAuthApi]: after the refresh has settled *)

(** The store a refresh that was sent leaves when it settles. *)
Lemma refresh_settles_store (sc : Sched) h s0 r :
  pool sc !! h = filed (start_refresh s0) ->
  truthy (refreshToken s0) = true ->
  truthy (refreshToken (store sc)) = true ->
  h < next sc ->
  let sc' := run_events [EvResume h r; EvResume h r] sc in
  match r with
  | FetchOk b =>
      forall payload,
        decode (body_accessToken b) = Some payload ->
        store sc' =
          set_refreshQueue None
            (set_user (Some (user_of payload))
               (set_accessToken (body_accessToken b) (store sc)))
        /\ pool sc' = <[h := TDone (Normal tt)]> (pool sc)
        /\ next sc' = next sc
  | _ =>
      store sc' =
        set_refreshQueue None
          (log_navigate "/signin"
             (log_request (logout_request (refreshToken (store sc)))
                (set_loading true (store sc))))
      /\ next sc' = S (next sc)
  end.
Proof.
  intros Hpool Hrt0 Hrt Hlt.
  unfold start_refresh, refreshAccessToken, parseUserFromToken in Hpool.
  cbn -[logout] in Hpool. rewrite Hrt0 in Hpool. cbn -[logout] in Hpool.
  cbv zeta. rewrite !run_events_cons. cbn [step run_events foldl].
  rewrite (resume_fetch _ _ _ _ _ _ Hpool).
  destruct r as [b|status m|m]; cbn -[logout].
  - intros payload Hdec. rewrite Hdec. cbn -[logout].
    erewrite resume_yield by (cbn; apply lookup_insert_eq). cbn.
    split; [reflexivity|]. split; [|reflexivity].
    apply insert_insert_eq.
  - erewrite resume_yield by (cbn; apply lookup_insert_eq).
    unfold logout, logout_request. cbn. rewrite Hrt. cbn.
    split; reflexivity.
  - erewrite resume_yield by (cbn; apply lookup_insert_eq).
    unfold logout, logout_request. cbn. rewrite Hrt. cbn.
    split; reflexivity.
Qed.

Lemma concurrent_callers_store (c : Call) (calls : list Call) (sc : Sched) :
  refreshQueue (store sc) = None ->
  isAuthenticated (store sc) = true ->
  isTokenExpired (store sc) = true ->
  truthy (refreshToken (store sc)) = true ->
  Forall (fun c => plain (call_options c)) (c :: calls) ->
  let sc' := run_events (EvCall <$> c :: calls) sc in
  store sc' =
    set_refreshQueue (Some (S (next sc)))
      (log_request (refresh_request (refreshToken (store sc))) (store sc))
  /\ pool sc' !! S (next sc) = filed (start_refresh (store sc))
  /\ S (next sc) < next sc'.
Proof.
  intros Hq Hauth Hexp Hrt Hcalls.
  destruct (concurrent_callers c calls sc Hq Hauth Hexp Hcalls)
    as (Hstore & Hnext & Hh & _).
  cbv zeta. rewrite Hstore, Hnext, start_refresh_leaves, Hrt.
  split; [reflexivity|]. split; [exact Hh|lia].
Qed.

(** X17. When the refresh the callers wait for succeeds, the session
    holds the new access token and the user decoded from it; the refresh
    token is the one of before, nothing is redirected, no logout is
    called, and the refresh request is the only request made so far. *)
Theorem refresh_success_in_pipeline (sc : Sched) (c : Call)
    (calls : list Call) b payload :
  refreshQueue (store sc) = None ->
  isAuthenticated (store sc) = true ->
  isTokenExpired (store sc) = true ->
  truthy (refreshToken (store sc)) = true ->
  Forall (fun c => plain (call_options c)) (c :: calls) ->
  decode (body_accessToken b) = Some payload ->
  let sc' := run_events (EvCall <$> c :: calls) sc in
  let h := S (next sc) in
  let sc'' := run_events [EvResume h (FetchOk b); EvResume h (FetchOk b)]
                sc' in
  accessToken (store sc'') = body_accessToken b
  /\ user (store sc'') = Some (user_of payload)
  /\ refreshToken (store sc'') = refreshToken (store sc)
  /\ refreshQueue (store sc'') = None
  /\ navlog (store sc'') = navlog (store sc)
  /\ netlog (store sc'') =
       refresh_request (refreshToken (store sc)) :: netlog (store sc)
  /\ next sc'' = next sc'.
Proof.
  intros Hq Hauth Hexp Hrt Hcalls Hdec sc' h sc''.
  destruct (concurrent_callers_store c calls sc Hq Hauth Hexp Hrt Hcalls)
    as (Hstore & Hh & Hlt).
  fold sc' in Hstore, Hh, Hlt. fold h in Hstore, Hh, Hlt.
  assert (Hrt' : truthy (refreshToken (store sc')) = true)
    by (rewrite Hstore; exact Hrt).
  destruct (refresh_settles_store sc' h (store sc) (FetchOk b) Hh Hrt Hrt'
              Hlt payload Hdec) as (Hstore'' & _ & Hnext'').
  fold sc'' in Hstore'', Hnext''. rewrite Hstore'', Hstore.
  repeat split; try reflexivity. exact Hnext''.
Qed.

(** X18. The handle cleared by a refresh that was rejected lets the next
    expiry start a new one: a gateway call made right after the
    rejection, while the logout it triggered is still waiting for its
    answer, finds the session still authenticated on the expired token,
    starts a second refresh with the same refresh token under a fresh
    promise and waits for it. *)
Theorem refresh_retried_after_rejection (sc : Sched) (c : Call)
    (calls : list Call) (r : FetchResult) (c2 : Call) :
  refreshQueue (store sc) = None ->
  isAuthenticated (store sc) = true ->
  isTokenExpired (store sc) = true ->
  truthy (refreshToken (store sc)) = true ->
  Forall (fun c => plain (call_options c)) (c :: calls) ->
  plain (call_options c2) ->
  (forall b, r <> FetchOk b) ->
  let sc' := run_events (EvCall <$> c :: calls) sc in
  let h := S (next sc) in
  let sc'' := run_events [EvResume h r; EvResume h r] sc' in
  let sc3 := step (EvCall c2) sc'' in
  let token := refreshToken (store sc) in
  refreshQueue (store sc'') = None
  /\ refreshQueue (store sc3) = Some (S (next sc''))
  /\ waits_for sc3 (next sc'') (S (next sc''))
  /\ netlog (store sc3) =
       refresh_request token :: logout_request token
         :: refresh_request token :: netlog (store sc).
Proof.
  intros Hq Hauth Hexp Hrt Hcalls Hc2 Hr sc' h sc'' sc3 token.
  destruct (concurrent_callers_store c calls sc Hq Hauth Hexp Hrt Hcalls)
    as (Hstore & Hh & Hlt).
  fold sc' in Hstore, Hh, Hlt. fold h in Hstore, Hh, Hlt.
  assert (Hstore'' : store sc'' =
    set_refreshQueue None
      (log_navigate "/signin"
         (log_request (logout_request (refreshToken (store sc')))
            (set_loading true (store sc'))))).
  { assert (Hrt' : truthy (refreshToken (store sc')) = true)
      by (rewrite Hstore; exact Hrt).
    pose proof (refresh_settles_store sc' h (store sc) r Hh Hrt Hrt' Hlt)
      as H.
    fold sc'' in H.
    destruct r as [b|status m|m]; [destruct (Hr b eq_refl)|apply H|apply H]. }
  assert (Hq'' : refreshQueue (store sc'') = None)
    by (rewrite Hstore''; reflexivity).
  assert (Hauth'' : isAuthenticated (store sc'') = true).
  { rewrite Hstore'', Hstore. exact Hauth. }
  assert (Hexp'' : isTokenExpired (store sc'') = true).
  { rewrite Hstore'', Hstore. exact Hexp. }
  assert (Hrt'' : truthy (refreshToken (store sc'')) = true).
  { rewrite Hstore'', Hstore. exact Hrt. }
  destruct (first_caller c2 sc'' Hq'' Hauth'' Hexp'' Hc2) as (t & Ht & Hstep).
  cbv zeta in Hstep. fold sc3 in Hstep.
  split; [exact Hq''|]. rewrite Hstep. cbn [store pool next].
  split; [reflexivity|]. split.
  - unfold waits_for. cbn [pool]. rewrite lookup_insert_eq. reflexivity.
  - change (netlog (left_by (start_refresh (store sc'')) (store sc''))
            = refresh_request token :: logout_request token
                :: refresh_request token :: netlog (store sc)).
    rewrite start_refresh_leaves, Hrt'', Hstore'', Hstore. reflexivity.
Qed.

(** ** [useAuthApi]: the computed and the start of a refresh *)

(** A gateway whose computed is evaluated at the read makes the call as
    [request] describes it. *)
Lemma perform_reading_evaluated (c : Call) (s : Store) :
  perform_reading (isTokenExpired s) c s = perform c s.
Proof.
  unfold perform_reading, request_reading, perform, request. cbn.
  destruct (isAuthenticated s); cbn; [|reflexivity].
  destruct (opt_onRequest (call_options c)); reflexivity.
Qed.

(** Whatever the computed gives, a gateway call either is quiet, or finds
    no handle and starts the refresh. *)
Lemma perform_reading_shape (expired : bool) (c : Call) (s : Store) :
  plain (call_options c) ->
  (quiet (refreshQueue s) (perform_reading expired c s)
   /\ (isAuthenticated s = false \/ expired = false
       \/ is_Some (refreshQueue s))
   /\ left_by (perform_reading expired c s) s = s)
  \/ (isAuthenticated s = true /\ expired = true /\ refreshQueue s = None
      /\ starts_refresh (perform_reading expired c s)).
Proof.
  intros [Hreq Hresp].
  pose (created := call_fetch_options c s).
  assert (Hdispatch : forall hdrs s',
    quiet (refreshQueue s')
      (dispatch (call_url c)
         {| baseURL := baseURL created;
            headers := headers created;
            onRequest :=
              Some (default (gateway_onRequest_reading expired)
                      (opt_onRequest (call_options c)));
            onResponseError := onResponseError created;
            method := method created;
            body := body created |} hdrs s')).
  { intros hdrs s'. apply dispatch_quiet; cbn; [by rewrite Hresp|eauto]. }
  unfold perform_reading, request_reading. cbn.
  destruct (isAuthenticated s); cbn; [|left; auto].
  rewrite Hreq. cbn. unfold gateway_onRequest_reading. cbn.
  destruct expired; cbn.
  - destruct (refreshQueue s) as [pending|] eqn:Hq; cbn.
    + left. split; [|eauto]. split; [exact Hq|]. intros outcome s'.
      apply quiet_bind; [|intros; apply Hdispatch].
      apply quiet_await. destruct outcome; cbn; reflexivity.
    + right. split; [reflexivity|]. split; [reflexivity|].
      split; [reflexivity|]. split.
      * pose proof (start_refresh_started s) as Hst.
        rewrite Hq in Hst. exact Hst.
      * intros h s'. cbn. split; [reflexivity|]. intros outcome s''.
        apply quiet_bind; [|intros; apply Hdispatch].
        apply quiet_await. destruct outcome; cbn; reflexivity.
  - left. split; [|auto]. split; [reflexivity|]. intros s'.
    apply Hdispatch.
Qed.


(** ** [useAuthApi]: the single refresh among the calls of a gateway *)

Lemma client_step_sched (ev : ClientEvent) (cl : Client) :
  sched (client_step ev cl) =
    match ev with
    | CeUseAuthApi => start initialize (sched cl)
    | CeCall c =>
        start (perform_reading
                 (fst (read_isTokenExpired (expired_cell cl)
                         (store (sched cl)))) c) (sched cl)
    | CeRefresh => start refreshAccessToken (sched cl)
    | CeLogin credentials => step (EvLogin credentials) (sched cl)
    | CeLogout => step EvLogout (sched cl)
    | CeResume h r => step (EvResume h r) (sched cl)
    | CeClock t => step (EvClock t) (sched cl)
    end.
Proof.
  destruct ev; unfold client_step; try reflexivity.
  destruct (read_isTokenExpired (expired_cell cl) (store (sched cl)));
    reflexivity.
Qed.

Lemma client_step_single_flight (ev : ClientEvent) (cl : Client) :
  coordinated ev -> single_flight (sched cl) ->
  single_flight (sched (client_step ev cl)).
Proof.
  intros Hev Hinv. rewrite client_step_sched.
  destruct ev as [|c| |credentials| |h r|t]; cbn in Hev;
    try contradiction;
    try (by apply step_single_flight).
  set (sc := sched cl) in *.
  set (expired := fst (read_isTokenExpired (expired_cell cl) (store sc))).
  assert (Hnext : single_flight_at (refreshQueue (store sc)) (pool sc)
                    (S (next sc))).
  { eapply single_flight_at_next; [exact Hinv|lia]. }
  unfold start.
  destruct (perform_reading_shape expired c (store sc) Hev)
    as [(Hq & _)|(_ & _ & Hnone & Hst)].
  - destruct (drive_quiet _ _ _ (next sc) _ _ Hq Hnext) as (H1 & _);
      [lia|eapply single_flight_at_fresh; exact Hinv|exact H1].
  - rewrite Hnone in Hnext.
    destruct (drive_starts_refresh _ _ (next sc) _ _ Hst Hnext) as [H1 _];
      [lia|exact H1].
Qed.

(** X23. Among the calls made through a gateway, logins, logouts,
    resumptions and clock changes, from a start with no handle, and
    whatever the computed of the gateway holds or comes to hold: at every
    instant at most one refresh call is outstanding, it belongs to the
    task the handle [refreshQueue] names, and the promise the handle names
    has not settled.  The making of a gateway and a direct call of
    [refreshAccessToken] are not among these events. *)
Theorem single_flight_among_gateway_calls (s : Store)
    (cell : option bool) (evs : list ClientEvent) :
  refreshQueue s = None ->
  Forall coordinated evs ->
  one_refresh_at_a_time
    (sched (client_run evs {| sched := idle s; expired_cell := cell |})).
Proof.
  intros Hq Hevs. apply single_flight_one_refresh.
  assert (Hgen : forall cl, single_flight (sched cl) ->
    single_flight (sched (client_run evs cl))).
  { induction Hevs as [|ev evs Hev _ IH]; intros cl Hinv; cbn.
    - exact Hinv.
    - apply IH. by apply client_step_single_flight. }
  apply Hgen. cbn. by apply idle_single_flight.
Qed.

(** ** [useAuth]: the refresh of [initialize] and the handle *)

(** A gateway call that starts the refresh, for a computed that gives
    true: the refresh is filed under the promise after the caller's. *)
Lemma first_caller_reading (c : Call) (cl : Client) :
  let sc := sched cl in
  refreshQueue (store sc) = None ->
  isAuthenticated (store sc) = true ->
  fst (read_isTokenExpired (expired_cell cl) (store sc)) = true ->
  plain (call_options c) ->
  let h := S (next sc) in
  exists t k,
    filed (start_refresh (store sc)) = Some t
    /\ sched (client_step (CeCall c) cl) =
       {| store := set_refreshQueue (Some h)
                     (left_by (start_refresh (store sc)) (store sc));
          pool := <[next sc := @TAwait Body h k]> (<[h := t]> (pool sc));
          next := S h |}.
Proof.
  intros sc Hq Hauth Hexp [Hreq _] h. rewrite client_step_sched.
  fold sc. rewrite Hexp.
  unfold start, perform_reading, request_reading. cbn.
  rewrite Hauth. cbn. rewrite Hreq. cbn.
  unfold gateway_onRequest_reading. cbn. rewrite Hq. cbn.
  unfold start_refresh, refreshAccessToken. cbn.
  destruct (truthy (refreshToken (store sc))); cbn; do 2 eexists;
    (split; [reflexivity|reflexivity]).
Qed.

(** X24. A gateway is made on a session that holds a refresh token and an
    access token the getter finds expired.  [initialize] sends a refresh
    call of its own and leaves the handle as it finds it; the computed
    keeps true.  When the session is authenticated and no handle is set,
    a call made through the gateway next starts the refresh of
    [onRequest] as well: the refresh call of [initialize] and that of the
    handle are both waiting for their answers. *)
Theorem initialize_refresh_is_not_coordinated (cl : Client) (c : Call) :
  let sc := sched cl in
  let s := store sc in
  truthy (accessToken s) = true ->
  isTokenExpired s = true ->
  truthy (refreshToken s) = true ->
  let made := client_step CeUseAuthApi cl in
  let req := refresh_request (refreshToken s) in
  in_flight (sched made) (next sc) req
  /\ refreshQueue (store (sched made)) = refreshQueue s
  /\ netlog (store (sched made)) = req :: netlog s
  /\ expired_cell made = Some true
  /\ (plain (call_options c) -> isAuthenticated s = true ->
      refreshQueue s = None ->
      let called := client_step (CeCall c) made in
      in_flight (sched called) (next sc) req
      /\ in_flight (sched called) (S (S (next sc))) req
      /\ refreshQueue (store (sched called)) = Some (S (S (next sc)))
      /\ netlog (store (sched called)) = req :: req :: netlog s
      /\ ~ one_refresh_at_a_time (sched called)).
Proof.
  intros sc s Hat Hexp Hrt made req.
  assert (Hmade : exists k,
    sched made =
      {| store := log_request req (set_loading true s);
         pool := <[next sc := @TFetch unit req k]> (pool sc);
         next := S (next sc) |}).
  { unfold made. rewrite client_step_sched. fold sc.
    unfold start, initialize, refreshAccessToken. fold s. cbn.
    rewrite Hat. rewrite (isTokenExpired_set_loading true s), Hexp. cbn.
    rewrite Hrt. cbn. eexists. reflexivity. }
  assert (Hcell : expired_cell made = Some true).
  { destruct Hmade as [k Hk]. unfold made, client_step in *.
    fold sc in Hk |- *. fold s in Hk |- *. cbn in Hk |- *.
    rewrite Hk. rewrite Hat. cbn. rewrite Hexp. unfold renewed. cbn.
    rewrite decide_True by reflexivity. reflexivity. }
  destruct Hmade as [k Hk].
  split; [unfold in_flight; rewrite Hk; cbn;
          rewrite lookup_insert_eq; reflexivity|].
  split; [rewrite Hk; reflexivity|].
  split; [rewrite Hk; reflexivity|].
  split; [exact Hcell|].
  intros Hplain Hauth Hq called.
  destruct (first_caller_reading c made) as (t & k' & Ht & Hcalled).
  { rewrite Hk. exact Hq. }
  { rewrite Hk. exact Hauth. }
  { rewrite Hcell. reflexivity. }
  { exact Hplain. }
  fold called in Hcalled. rewrite Hk in Hcalled, Ht. cbn in Hcalled, Ht.
  assert (Ht' : exists k2, t = @TFetch unit req k2).
  { revert Ht. unfold start_refresh, refreshAccessToken. cbn.
    rewrite Hrt. cbn. intros [= <-]. eexists. reflexivity. }
  destruct Ht' as [k2 ->].
  assert (H0 : pool (sched called) !! next sc = Some (@TFetch unit req k)).
  { rewrite Hcalled. cbn.
    rewrite lookup_insert_ne by lia. rewrite lookup_insert_ne by lia.
    apply lookup_insert_eq. }
  assert (H2 : pool (sched called) !! S (S (next sc))
               = Some (@TFetch unit req k2)).
  { rewrite Hcalled. cbn.
    rewrite lookup_insert_ne by lia. apply lookup_insert_eq. }
  split; [unfold in_flight; rewrite H0; reflexivity|].
  split; [unfold in_flight; rewrite H2; reflexivity|].
  split; [rewrite Hcalled; reflexivity|].
  split.
  { rewrite Hcalled.
    change (netlog (left_by (start_refresh (log_request req (set_loading true s)))
                      (log_request req (set_loading true s)))
            = req :: req :: netlog s).
    rewrite start_refresh_leaves. cbn. rewrite Hrt. reflexivity. }
  intros [Hone _].
  assert (Hreq : is_refresh_request req) by (eexists; reflexivity).
  pose proof (Hone _ _ _ _ H0 Hreq H2 Hreq) as Heq. lia.
Qed.

End Pipeline.

(** * The properties on the sample data *)

Lemma isTokenExpired_spec_witness :
  isTokenExpired sample_decode signed_out = true
  /\ (isTokenExpired sample_decode sample_store = true
      <-> (now sample_store >= 100 * 1000 - 10000)%Z)
  /\ isTokenExpired sample_decode (set_now 89999 sample_store) = false
  /\ isTokenExpired sample_decode (set_now 90000 sample_store) = true
  /\ isTokenExpired sample_decode
       (set_accessToken (Some "garbage") sample_store) = true.
Proof.
  pose (payload := {| sub := "u1"; exp := 100; iat := 0; roles := None;
                      email := "u1@example.org" |}).
  assert (Hne : "token-100" <> "") by discriminate.
  split; [|split; [|split; [|split]]].
  - apply (isTokenExpired_spec sample_decode signed_out). reflexivity.
  - apply (proj1 (proj2 (isTokenExpired_spec sample_decode sample_store))
             "token-100" payload eq_refl Hne eq_refl).
  - apply (proj1 (proj2 (isTokenExpired_spec sample_decode
                           (set_now 89999 sample_store)))
             "token-100" payload eq_refl Hne eq_refl). reflexivity.
  - apply (proj1 (proj2 (isTokenExpired_spec sample_decode
                           (set_now 90000 sample_store)))
             "token-100" payload eq_refl Hne eq_refl). reflexivity.
  - apply (proj2 (proj2 (isTokenExpired_spec sample_decode
                           (set_accessToken (Some "garbage") sample_store)))
             "garbage" eq_refl eq_refl).
Defined.

Lemma refreshAccessToken_without_refresh_token_witness :
  truthy (refreshToken signed_out) = false
  /\ refreshAccessToken sample_decode signed_out =
       Done (Thrown (AuthError REFRESH_FAILED "No refresh token available"))
         signed_out.
Proof.
  split; [reflexivity|].
  apply (refreshAccessToken_without_refresh_token sample_decode signed_out).
  reflexivity.
Defined.

Lemma request_unauthenticated_witness :
  isAuthenticated signed_out = false
  /\ api_get sample_decode sample_base "/ratings" no_options
       signed_out =
     Done (Thrown (AuthError UNAUTHORIZED "Authentication required"))
       signed_out.
Proof.
  split; [reflexivity|].
  apply (request_unauthenticated sample_decode sample_base
           signed_out "/ratings" no_options).
  reflexivity.
Defined.

(** C7. On the signed-in sample session, a refresh answered with an
    undecodable access token fails with [REFRESH_FAILED], yet the access
    token is no longer the one the session had: it has been overwritten
    with the undecodable one, next to the user and refresh token of
    before. *)
Theorem refreshAccessToken_failure_overwrites_token :
  exists message s',
    run undecodable_answer (refreshAccessToken sample_decode sample_store) =
      Some (Thrown (AuthError REFRESH_FAILED message), s')
    /\ accessToken sample_store = Some "token-100"
    /\ accessToken s' = Some "garbage"
    /\ refreshToken s' = refreshToken sample_store
    /\ user s' = Some sample_user.
Proof. do 2 eexists. split; [reflexivity|]. cbn. auto. Qed.

(** C8. On the signed-out sample session, which satisfies the session
    invariant, a login answered with an undecodable access token fails
    with [INVALID_CREDENTIALS] and leaves the access token present and the
    user absent: the invariant is broken. *)
Theorem login_failure_breaks_session_invariant :
  session_invariant sample_decode signed_out
  /\ exists message s',
       run undecodable_answer
         (login sample_decode
            {| cred_email := "u1@example.org"; cred_password := "secret" |}
            signed_out) =
         Some (Thrown (AuthError INVALID_CREDENTIALS message), s')
       /\ accessToken s' = Some "garbage"
       /\ refreshToken s' = Some "refresh-2"
       /\ user s' = None
       /\ ~ session_invariant sample_decode s'.
Proof.
  split.
  - split; [split; intros [x Hx]; discriminate|discriminate].
  - do 2 eexists. split; [reflexivity|]. cbn. repeat split.
    intros [[_ H] _]. cbn in H. destruct H as [x Hx]; [eauto|discriminate].
Qed.

(** C2. Two gateway calls find the token of the sample session expired;
    the refresh is rejected and settles; both callers are resumed.  The
    promise of the refresh is fulfilled, not rejected, and the redirect to
    [/signin] is on record.  No caller has failed and neither call is
    abandoned: both requests have been dispatched, with the expired
    token, and wait for their answers. *)
Lemma refresh_failure_not_propagated :
  let sc := run_events sample_decode sample_base rejected_refresh_schedule
              (idle sample_store) in
  isTokenExpired sample_decode sample_store = true
  /\ pool sc !! 1 = Some (TDone (Normal tt))
  /\ navlog (store sc) = ["/signin"]
  /\ in_flight sc 0 (sample_request "/ratings" "token-100")
  /\ in_flight sc 2 (sample_request "/shows" "token-100")
  /\ sample_request "/ratings" "token-100" ∈ netlog (store sc)
  /\ sample_request "/shows" "token-100" ∈ netlog (store sc)
  /\ ~ abandoned sc 0 "/ratings"
  /\ ~ abandoned sc 2 "/shows".
Proof.
  cbv zeta.
  split; [vm_compute; reflexivity|]. split; [vm_compute; reflexivity|].
  split; [vm_compute; reflexivity|]. split; [vm_compute; reflexivity|].
  split; [vm_compute; reflexivity|].
  split; [vm_compute; apply list_elem_of_In; cbn; auto|].
  split; [vm_compute; apply list_elem_of_In; cbn; auto|].
  split.
  - intros [(A & e & H) _]. vm_compute in H. discriminate H.
  - intros [(A & e & H) _]. vm_compute in H. discriminate H.
Qed.

Lemma caller_hooks_replace_gateway_hooks_witness :
  isAuthenticated sample_store = true
  /\ isTokenExpired sample_decode sample_store = true
  /\ opt_onRequest inert_options = Some inert_onRequest
  /\ onRequest
       (createFetchOptions sample_decode sample_base inert_options
          sample_store) = Some inert_onRequest
  /\ onResponseError
       (createFetchOptions sample_decode sample_base inert_options
          sample_store) = Some inert_onResponseError
  /\ run (fun _ => FetchOk (BodyData "[]"))
       (request sample_decode sample_base GET "/ratings" None inert_options
          sample_store) =
     Some (Normal (BodyData "[]"),
           log_request
             (dispatched sample_decode sample_base GET "/ratings" None
                inert_options sample_store) sample_store).
Proof.
  destruct (caller_hooks_replace_gateway_hooks sample_decode sample_base
              inert_options sample_store) as (H1 & H2 & H3 & _).
  split; [reflexivity|]. split; [reflexivity|]. split; [reflexivity|].
  split; [apply H1; reflexivity|]. split; [apply H2; reflexivity|].
  apply H3; reflexivity.
Defined.

Lemma single_flight_refresh_witness :
  let calls := [sample_call "/ratings"; sample_call "/shows"] in
  let sc' := run_events sample_decode sample_base (EvCall <$> calls)
               (idle sample_store) in
  let sc'' := run_events sample_decode sample_base
                [EvResume 1 refreshed; EvResume 1 refreshed] sc' in
  refreshQueue sample_store = None
  /\ isAuthenticated sample_store = true
  /\ isTokenExpired sample_decode sample_store = true
  /\ one_refresh_at_a_time sc'
  /\ refreshQueue (store sc') = Some 1
  /\ netlog (store sc') = [refresh_request (Some "refresh-1")]
  /\ waits_for sc' 0 1
  /\ waits_for sc' 2 1
  /\ refreshQueue (store sc'') = None
  /\ pool sc'' !! 1 = Some (TDone (Normal tt))
  /\ in_flight
       (run_events sample_decode sample_base
          [EvResume 2 refreshed; EvResume 2 refreshed] sc'')
       2 (sample_request "/shows" "token-5000").
Proof.
  cbv zeta.
  destruct (single_flight_refresh sample_decode sample_base sample_store []
              eq_refl) as [_ H].
  { constructor. }
  destruct (H (sample_call "/ratings") [sample_call "/shows"]
              eq_refl eq_refl eq_refl)
    as (H1 & H2 & _ & H4 & H5 & H6).
  { repeat constructor. }
  destruct (H6 refreshed) as (_ & H7 & H8 & _ & H9).
  split; [reflexivity|]. split; [reflexivity|]. split; [reflexivity|].
  split; [exact H1|]. split; [exact H2|]. split; [exact H4|].
  split; [apply (H5 0); cbn; lia|]. split; [apply (H5 1); cbn; lia|].
  split; [exact H7|]. split; [exact H8|].
  exact (H9 1 (sample_call "/shows") refreshed refreshed eq_refl).
Defined.

Lemma refresh_failure_is_absorbed_witness :
  let calls := [sample_call "/ratings"; sample_call "/shows"] in
  let sc' := run_events sample_decode sample_base (EvCall <$> calls)
               (idle sample_store) in
  let sc'' := run_events sample_decode sample_base
                [EvResume 1 rejected; EvResume 1 rejected] sc' in
  ~ refresh_succeeds sample_decode sample_store rejected
  /\ pool sc'' !! 1 = Some (TDone (Normal tt))
  /\ refreshQueue (store sc'') = None
  /\ navlog (store sc'') = ["/signin"]
  /\ accessToken (store sc'') = Some "token-100"
  /\ in_flight
       (run_events sample_decode sample_base
          [EvResume 2 rejected; EvResume 2 rejected] sc'')
       2 (sample_request "/shows" "token-100").
Proof.
  cbv zeta.
  assert (Hfail : ~ refresh_succeeds sample_decode sample_store rejected).
  { intros (_ & b & Hb & _). discriminate Hb. }
  destruct (refresh_failure_is_absorbed sample_decode sample_base
              (idle sample_store) (sample_call "/ratings")
              [sample_call "/shows"] rejected eq_refl eq_refl eq_refl)
    as (H1 & H2 & H3 & _ & H5 & H6).
  { repeat constructor. }
  { exact Hfail. }
  split; [exact Hfail|]. split; [exact H1|]. split; [exact H2|].
  split; [exact H3|]. split.
  { apply H5; [intros b Hb; discriminate Hb|reflexivity]. }
  exact (proj1 (H6 1 (sample_call "/shows") rejected rejected eq_refl)).
Defined.

(** * [useApi] *)

(** X19. Each of the five functions of [useApi] reports the outcome of
    its [useFetch] call and never throws: the response has [pending]
    false; it carries the data when [useFetch] gives no error, and the
    error and no data when [useFetch] gives an error (also next to data)
    or throws. *)
Theorem useApi_reports (apiBaseUrl : option string)
    (useFetch : string -> UseApi.Options -> UseApi.Awaited)
    (endpoint : string) (payload : option string)
    (options : UseApi.Options) :
  UseApi.reports
    (useFetch endpoint
       (UseApi.options_without_body apiBaseUrl UseApi.GET options))
    (UseApi.get apiBaseUrl useFetch endpoint options)
  /\ UseApi.reports
       (useFetch endpoint
          (UseApi.options_with_body apiBaseUrl UseApi.POST payload options))
       (UseApi.post apiBaseUrl useFetch endpoint payload options)
  /\ UseApi.reports
       (useFetch endpoint
          (UseApi.options_with_body apiBaseUrl UseApi.PUT payload options))
       (UseApi.put apiBaseUrl useFetch endpoint payload options)
  /\ UseApi.reports
       (useFetch endpoint
          (UseApi.options_without_body apiBaseUrl UseApi.DELETE options))
       (UseApi.del apiBaseUrl useFetch endpoint options)
  /\ UseApi.reports
       (useFetch endpoint
          (UseApi.options_with_body apiBaseUrl UseApi.PATCH payload options))
       (UseApi.patch apiBaseUrl useFetch endpoint payload options).
Proof.
  assert (H : forall a, UseApi.reports a (UseApi.settle a)).
  { intros [d [e|]|e]; split; cbn; auto. }
  unfold UseApi.get, UseApi.post, UseApi.put, UseApi.del, UseApi.patch.
  repeat split; apply H.
Qed.

(** X20. What the caller's options cannot change, and what they fall back
    to.  A [method] among the options is ignored by all five functions,
    and a [body] among them is ignored by [post], [put] and [patch], which
    send their argument.  When the options carry no [baseURL] and none is
    configured (or the empty string is), [get] calls
    [http://localhost:3000/api]; headers of the caller replace the default
    [Content-Type] header as a whole. *)
Theorem useApi_options (apiBaseUrl : option string)
    (useFetch : string -> UseApi.Options -> UseApi.Awaited)
    (endpoint : string) (payload : option string)
    (options : UseApi.Options) :
  (forall m,
     let options' := UseApi.with_method m options in
     UseApi.get apiBaseUrl useFetch endpoint options'
       = UseApi.get apiBaseUrl useFetch endpoint options
     /\ UseApi.del apiBaseUrl useFetch endpoint options'
          = UseApi.del apiBaseUrl useFetch endpoint options
     /\ UseApi.post apiBaseUrl useFetch endpoint payload options'
          = UseApi.post apiBaseUrl useFetch endpoint payload options
     /\ UseApi.put apiBaseUrl useFetch endpoint payload options'
          = UseApi.put apiBaseUrl useFetch endpoint payload options
     /\ UseApi.patch apiBaseUrl useFetch endpoint payload options'
          = UseApi.patch apiBaseUrl useFetch endpoint payload options)
  /\ (forall b,
        let options' := UseApi.with_body b options in
        UseApi.post apiBaseUrl useFetch endpoint payload options'
          = UseApi.post apiBaseUrl useFetch endpoint payload options
        /\ UseApi.put apiBaseUrl useFetch endpoint payload options'
             = UseApi.put apiBaseUrl useFetch endpoint payload options
        /\ UseApi.patch apiBaseUrl useFetch endpoint payload options'
             = UseApi.patch apiBaseUrl useFetch endpoint payload options)
  /\ (UseApi.baseURL options = None ->
      apiBaseUrl = None \/ apiBaseUrl = Some "" ->
      UseApi.get apiBaseUrl useFetch endpoint options =
        UseApi.settle
          (useFetch endpoint
             {| UseApi.baseURL := Some "http://localhost:3000/api";
                UseApi.headers :=
                  Some (default {[ "Content-Type" := "application/json" ]}
                          (UseApi.headers options));
                UseApi.method := Some UseApi.GET;
                UseApi.body := UseApi.body options |})).
Proof.
  split; [|split].
  - intros m. cbn. repeat split.
  - intros b. cbn. repeat split.
  - intros Hbase Hcfg. unfold UseApi.get, UseApi.options_without_body.
    cbn. rewrite Hbase. cbn.
    destruct Hcfg as [-> | ->]; destruct (UseApi.headers options);
      destruct (UseApi.body options); reflexivity.
Qed.

(** * The further properties on the sample data *)

Lemma login_success_witness :
  exists s',
    run (always refreshed)
      (login sample_decode sample_credentials signed_out) =
      Some (Normal tt, s')
    /\ accessToken s' = Some "token-5000"
    /\ isAuthenticated s' = true
    /\ hasRole "admin" s' = true.
Proof.
  destruct (login_success sample_decode signed_out sample_credentials
              (always refreshed) sample_tokens sample_payload eq_refl)
    as (s' & H1 & H2 & _ & _ & _ & H6 & H7 & _);
    [discriminate|reflexivity|].
  exists s'. split; [exact H1|]. split; [exact H2|]. split; [exact H6|].
  apply H7. cbn. apply list_elem_of_In. cbn. auto.
Defined.

Lemma login_rejected_witness :
  exists s',
    run (always rejected)
      (login sample_decode sample_credentials signed_out) =
      Some (Thrown (AuthError INVALID_CREDENTIALS "refresh token revoked"),
            s')
    /\ accessToken s' = None.
Proof.
  destruct (login_rejected sample_decode signed_out sample_credentials
              (always rejected)) as (s' & H1 & H2 & _).
  { intros b. discriminate. }
  exists s'. split; [exact H1|exact H2].
Defined.

Lemma refreshAccessToken_success_witness :
  exists s',
    run (always refreshed) (refreshAccessToken sample_decode sample_store) =
      Some (Normal (Some "token-5000"), s')
    /\ refreshToken s' = Some "refresh-1".
Proof.
  destruct (refreshAccessToken_success sample_decode sample_store
              (always refreshed) (BodyTokens sample_tokens) sample_payload
              eq_refl eq_refl eq_refl) as (s' & H1 & _ & _ & H4 & _).
  exists s'. split; [exact H1|exact H4].
Defined.

Lemma refreshAccessToken_rejected_message_witness :
  run (always rejected) (refreshAccessToken sample_decode sample_store) =
    Some (Thrown (AuthError REFRESH_FAILED "refresh token revoked"),
          log_request (refresh_request (Some "refresh-1")) sample_store).
Proof.
  apply (refreshAccessToken_rejected_message sample_decode sample_store
           (always rejected) eq_refl).
  intros b. discriminate.
Defined.

Lemma isTokenExpired_monotone_witness :
  isTokenExpired sample_decode (set_now 200000 sample_store) = true.
Proof.
  apply (isTokenExpired_monotone sample_decode sample_store 200000).
  - cbn. lia.
  - reflexivity.
Defined.

Lemma initialize_without_access_token_witness :
  run (always refreshed)
    (initialize sample_decode
       (set_refreshToken (Some "refresh-1") signed_out)) =
    Some (Normal tt,
          set_loading false
            (set_loading true
               (set_refreshToken (Some "refresh-1") signed_out))).
Proof.
  apply (initialize_without_access_token sample_decode
           (set_refreshToken (Some "refresh-1") signed_out)
           (always refreshed)).
  reflexivity.
Defined.

Lemma initialize_unexpired_witness :
  exists payload,
    decode sample_decode (accessToken unexpired_store) = Some payload
    /\ run (always rejected)
         (initialize sample_decode (set_user None unexpired_store)) =
       Some (Normal tt,
             set_loading false
               (set_user (Some (user_of payload))
                  (set_loading true (set_user None unexpired_store)))).
Proof.
  exact (initialize_unexpired sample_decode (set_user None unexpired_store)
           (always rejected) eq_refl eq_refl).
Defined.

Lemma initialize_expired_witness :
  exists s',
    run (always rejected) (initialize sample_decode sample_store) =
      Some (Normal tt, s')
    /\ navlog s' = []
    /\ cleared s'.
Proof.
  destruct (initialize_expired sample_decode sample_store (always rejected)
              eq_refl eq_refl) as (s' & H1 & _ & H3 & _ & H5).
  exists s'. split; [exact H1|]. split; [exact H3|].
  apply H5. intros (_ & b & Hb & _). discriminate Hb.
Defined.

Lemma gateway_call_succeeds_witness :
  run (always (FetchOk (BodyData "[]")))
    (request sample_decode sample_base GET "/ratings" None no_options
       unexpired_store) =
    Some (Normal (BodyData "[]"),
          log_request (sample_request "/ratings" "token-100")
            unexpired_store).
Proof.
  apply (gateway_call_succeeds sample_decode sample_base unexpired_store GET
           "/ratings" None no_options (always (FetchOk (BodyData "[]")))
           (BodyData "[]")); try reflexivity.
  split; reflexivity.
Defined.

Lemma caller_headers_replace_gateway_headers_witness :
  run (always (FetchOk (BodyData "[]")))
    (request sample_decode sample_base GET "/ratings" None traced_options
       unexpired_store) =
    Some (Normal (BodyData "[]"),
          log_request
            {| req_url := "/ratings"; req_method := GET;
               req_baseURL := Some sample_base;
               req_headers := {[ "X-Trace" := "1" ]};
               req_body := None |}
            unexpired_store).
Proof.
  exact (caller_headers_replace_gateway_headers sample_decode sample_base
           unexpired_store GET "/ratings" None traced_options
           (always (FetchOk (BodyData "[]"))) (BodyData "[]")
           {[ "X-Trace" := "1" ]} (conj eq_refl eq_refl) eq_refl eq_refl
           eq_refl eq_refl).
Defined.


Lemma other_failures_only_propagate_witness :
  run (always (FetchHttpError 500 "boom"))
    (request sample_decode sample_base GET "/ratings" None no_options
       unexpired_store) =
    Some (Thrown (FetchError (Some 500%Z) "boom"),
          log_request
            (dispatched sample_decode sample_base GET "/ratings" None
               no_options unexpired_store)
            unexpired_store).
Proof.
  assert (Hne : (500 <> 401)%Z) by discriminate.
  exact (proj1 (other_failures_only_propagate sample_decode sample_base
                  unexpired_store GET "/ratings" None no_options
                  (always (FetchHttpError 500 "boom"))
                  (conj eq_refl eq_refl) eq_refl eq_refl)
           500%Z "boom" eq_refl Hne).
Defined.

Lemma refresh_success_in_pipeline_witness :
  let sc' := run_events sample_decode sample_base
               (EvCall <$> [sample_call "/ratings"; sample_call "/shows"])
               (idle sample_store) in
  let sc'' := run_events sample_decode sample_base
                [EvResume 1 refreshed; EvResume 1 refreshed] sc' in
  accessToken (store sc'') = Some "token-5000"
  /\ refreshToken (store sc'') = Some "refresh-1"
  /\ navlog (store sc'') = [].
Proof.
  cbv zeta.
  destruct (refresh_success_in_pipeline sample_decode sample_base
              (idle sample_store) (sample_call "/ratings")
              [sample_call "/shows"] (BodyTokens sample_tokens)
              sample_payload eq_refl eq_refl eq_refl eq_refl)
    as (H1 & _ & H3 & _ & H5 & _).
  { repeat constructor. }
  { reflexivity. }
  split; [exact H1|]. split; [exact H3|exact H5].
Defined.

Lemma refresh_retried_after_rejection_witness :
  let sc' := run_events sample_decode sample_base
               (EvCall <$> [sample_call "/ratings"])
               (idle sample_store) in
  let sc'' := run_events sample_decode sample_base
                [EvResume 1 rejected; EvResume 1 rejected] sc' in
  let sc3 := step sample_decode sample_base (EvCall (sample_call "/shows"))
               sc'' in
  refreshQueue (store sc'') = None
  /\ refreshQueue (store sc3) = Some 4
  /\ waits_for sc3 3 4.
Proof.
  cbv zeta.
  destruct (refresh_retried_after_rejection sample_decode sample_base
              (idle sample_store) (sample_call "/ratings") [] rejected
              (sample_call "/shows") eq_refl eq_refl eq_refl eq_refl)
    as (H1 & H2 & H3 & _).
  { repeat constructor. }
  { split; reflexivity. }
  { intros b. discriminate. }
  split; [exact H1|]. split; [exact H2|exact H3].
Defined.

Lemma login_session_invariant_witness :
  session_invariant sample_decode signed_out
  /\ exists c s',
       run (always refreshed)
         (login sample_decode sample_credentials signed_out) = Some (c, s')
       /\ session_invariant sample_decode s'.
Proof.
  assert (Hinv : session_invariant sample_decode signed_out).
  { split; [split; intros [x Hx]; discriminate|discriminate]. }
  split; [exact Hinv|].
  apply (login_session_invariant sample_decode signed_out sample_credentials
           (always refreshed) Hinv).
  intros b [= <-]. cbn. eauto.
Defined.

Lemma initialize_session_invariant_witness :
  truthy (accessToken (set_user None unexpired_store)) = true
  /\ ~ session_invariant sample_decode (set_user None unexpired_store)
  /\ exists c s',
       run (always rejected)
         (initialize sample_decode (set_user None unexpired_store)) =
         Some (c, s')
       /\ session_invariant sample_decode s'.
Proof.
  split; [reflexivity|]. split.
  - intros [[_ H] _]. destruct H as [x Hx]; [cbn; eauto|discriminate].
  - apply (initialize_session_invariant sample_decode
             (set_user None unexpired_store) (always rejected)).
    right. reflexivity.
Defined.

Lemma useApi_options_witness :
  let useFetch := fun (_ : string) (o : UseApi.Options) =>
    UseApi.Rejected (FetchError None (default "" (UseApi.baseURL o))) in
  let options :=
    {| UseApi.baseURL := None; UseApi.headers := None;
       UseApi.method := Some UseApi.PATCH; UseApi.body := None |} in
  UseApi.get (Some "") useFetch "/shows" options =
    {| UseApi.data := None;
       UseApi.error := Some (FetchError None "http://localhost:3000/api");
       UseApi.pending := false |}.
Proof.
  cbv zeta.
  rewrite (proj2 (proj2 (useApi_options (Some "")
                           (fun _ o => UseApi.Rejected
                              (FetchError None
                                 (default "" (UseApi.baseURL o))))
                           "/shows" None
                           {| UseApi.baseURL := None; UseApi.headers := None;
                              UseApi.method := Some UseApi.PATCH;
                              UseApi.body := None |}))
             eq_refl (or_intror eq_refl)).
  reflexivity.
Defined.

(** * The client on the sample data *)

(** C3. The sample token expires at second 100, so the claim has
    [isTokenExpired] false up to millisecond 89999 and true from
    millisecond 90000 on.  A gateway is made at millisecond 89999, and the
    computed, read then, gives false.  At milliseconds 90000 and 200000 the
    access token is the same, the getter evaluated then gives true, and
    the computed still gives false: it has kept the value of its first
    read.  A call made through the gateway at millisecond 200000 starts no
    refresh and is dispatched with the expired token. *)
Theorem isTokenExpired_kept_past_expiry :
  let read (cl : Client) :=
    fst (read_isTokenExpired sample_decode (expired_cell cl)
           (store (sched cl))) in
  let made := client_step sample_decode sample_base CeUseAuthApi
                (client (set_now 89999 sample_store)) in
  let at_bound := client_step sample_decode sample_base (CeClock 90000)
                    made in
  let later := client_step sample_decode sample_base (CeClock 200000)
                 at_bound in
  let called := client_run sample_decode sample_base
                  [CeCall (sample_call "/ratings");
                   CeResume 1 (FetchOk (BodyData "[]"))] later in
  (exp <$> sample_decode "token-100") = Some 100%Z
  /\ read made = false
  /\ accessToken (store (sched at_bound)) = Some "token-100"
  /\ now (store (sched at_bound)) = 90000%Z
  /\ isTokenExpired sample_decode (store (sched at_bound)) = true
  /\ read at_bound = false
  /\ accessToken (store (sched later)) = Some "token-100"
  /\ now (store (sched later)) = 200000%Z
  /\ isTokenExpired sample_decode (store (sched later)) = true
  /\ read later = false
  /\ refreshQueue (store (sched called)) = None
  /\ netlog (store (sched called)) = [sample_request "/ratings" "token-100"]
  /\ in_flight (sched called) 1 (sample_request "/ratings" "token-100").
Proof.
  cbv zeta.
  split; [vm_compute; reflexivity|]. split; [vm_compute; reflexivity|].
  split; [vm_compute; reflexivity|]. split; [vm_compute; reflexivity|].
  split; [vm_compute; reflexivity|]. split; [vm_compute; reflexivity|].
  split; [vm_compute; reflexivity|]. split; [vm_compute; reflexivity|].
  split; [vm_compute; reflexivity|]. split; [vm_compute; reflexivity|].
  split; [vm_compute; reflexivity|]. split; [vm_compute; reflexivity|].
  vm_compute; reflexivity.
Qed.

(** C1. On the sample session, whose token has expired, a component calls
    [useAuthApi()] and makes one call through the gateway.  [initialize],
    started by [useAuth()], has found the token expired and called
    [refreshAccessToken] itself, without looking at the handle or setting
    it; the gateway call has found the token expired and no handle, and
    has started the refresh of [onRequest].  Two refresh calls are waiting
    for their answers, that of [initialize] (promise 0) and that of the
    handle (promise 2), for which the gateway call (promise 1) waits. *)
Theorem initialize_refreshes_outside_the_handle :
  let cl := client_run sample_decode sample_base
              [CeUseAuthApi; CeCall (sample_call "/ratings")]
              (client sample_store) in
  let sc := sched cl in
  isAuthenticated sample_store = true
  /\ isTokenExpired sample_decode sample_store = true
  /\ refreshQueue sample_store = None
  /\ in_flight sc 0 (refresh_request (Some "refresh-1"))
  /\ in_flight sc 2 (refresh_request (Some "refresh-1"))
  /\ waits_for sc 1 2
  /\ refreshQueue (store sc) = Some 2
  /\ netlog (store sc) =
       [refresh_request (Some "refresh-1");
        refresh_request (Some "refresh-1")]
  /\ ~ one_refresh_at_a_time sc.
Proof.
  cbv zeta.
  split; [vm_compute; reflexivity|]. split; [vm_compute; reflexivity|].
  split; [vm_compute; reflexivity|]. split; [vm_compute; reflexivity|].
  split; [vm_compute; reflexivity|]. split; [vm_compute; reflexivity|].
  split; [vm_compute; reflexivity|]. split; [vm_compute; reflexivity|].
  intros [Hone _].
  match type of Hone with
  | context [pool ?sc] =>
      assert (H0 : exists t, pool sc !! 0 = Some t /\ awaits_refresh_call t);
      [|assert (H2 : exists t,
                  pool sc !! 2 = Some t /\ awaits_refresh_call t)]
  end.
  - vm_compute. eexists. split; [reflexivity|].
    exists (Some "refresh-1"). reflexivity.
  - vm_compute. eexists. split; [reflexivity|].
    exists (Some "refresh-1"). reflexivity.
  - destruct H0 as (t0 & Ht0 & Ha0). destruct H2 as (t2 & Ht2 & Ha2).
    discriminate (Hone 0 2 t0 t2 Ht0 Ha0 Ht2 Ha2).
Qed.


Lemma single_flight_among_gateway_calls_witness :
  let evs := [CeCall (sample_call "/ratings"); CeCall (sample_call "/shows");
              CeResume 1 refreshed; CeResume 1 refreshed;
              CeCall (sample_call "/seasons")] in
  refreshQueue sample_store = None
  /\ Forall coordinated evs
  /\ one_refresh_at_a_time
       (sched (client_run sample_decode sample_base evs
                 {| sched := idle sample_store; expired_cell := None |})).
Proof.
  cbv zeta.
  assert (Hevs : Forall coordinated
                   [CeCall (sample_call "/ratings");
                    CeCall (sample_call "/shows");
                    CeResume 1 refreshed; CeResume 1 refreshed;
                    CeCall (sample_call "/seasons")]).
  { repeat constructor. }
  split; [reflexivity|]. split; [exact Hevs|].
  exact (single_flight_among_gateway_calls sample_decode sample_base
           sample_store None _ eq_refl Hevs).
Defined.

Lemma initialize_refresh_is_not_coordinated_witness :
  let made := client_step sample_decode sample_base CeUseAuthApi
                (client sample_store) in
  let called := client_step sample_decode sample_base
                  (CeCall (sample_call "/ratings")) made in
  truthy (accessToken sample_store) = true
  /\ isTokenExpired sample_decode sample_store = true
  /\ truthy (refreshToken sample_store) = true
  /\ in_flight (sched made) 0 (refresh_request (Some "refresh-1"))
  /\ expired_cell made = Some true
  /\ in_flight (sched called) 2 (refresh_request (Some "refresh-1"))
  /\ ~ one_refresh_at_a_time (sched called).
Proof.
  cbv zeta.
  destruct (initialize_refresh_is_not_coordinated sample_decode sample_base
              (client sample_store) (sample_call "/ratings")
              eq_refl eq_refl eq_refl) as (H1 & _ & _ & H4 & H5).
  destruct H5 as (_ & H6 & _ & _ & H7);
    [split; reflexivity|reflexivity|reflexivity|].
  split; [reflexivity|]. split; [reflexivity|]. split; [reflexivity|].
  split; [exact H1|]. split; [exact H4|]. split; [exact H6|exact H7].
Defined.
